(** * utsh: a shallow embedding of the custom Unix shell

    The repository holds two programs.  [sh1.c] is the raw-mode shell with
    the line editor, [!n] recall, redirection, pipelines and the logical
    operators; the unnamed source file starts with the earlier line-buffered
    shell that has the [history] and [cd] builtins.  The first is embedded at
    the top level of this file, the second in the module [Simple].

    C strings are [string]s, the memory of a line buffer is a [list ascii],
    [int]s are [Z], array indices and counts are [nat].  Operating system
    calls take their outcome from an oracle record and leave an event in a
    trace. *)

From Stdlib Require Import ZArith Ascii Lia.
From Stdlib Require String.
From stdpp Require Import base list strings.

Local Open Scope Z_scope.

(** ** C strings *)

Definition strlen (s : string) : nat := String.length s.

(** [strcmp(a, b) == 0] *)
Definition streq (a b : string) : bool := String.eqb a b.

Definition newline : ascii := "010"%char.

(** ** History ([sh1.c], lines 21-80) *)

(** [char *history[MAX_HISTORY]; int history_count = 0;]  The array has
    static storage, so every slot starts as a null pointer ([None]). *)
Record hist : Type := Hist {
  history : list (option string);
  history_count : nat
}.

(** Lines 56-58 of [add_to_history]: the caller's buffer is cut in place when
    its last character is a newline. *)
Definition trim_newline (command : string) : string :=
  let len := strlen command in
  if (0 <? len)%nat && bool_decide (String.get (len - 1) command = Some newline)
  then String.substring 0 (len - 1) command
  else command.

Section History.

(** [#define MAX_HISTORY 50], kept as a parameter so that small capacities
    can be run as well. *)
Variable MAX_HISTORY : nat.

Definition history_init : hist :=
  Hist (replicate MAX_HISTORY None) 0.

(** Lines 67-69: [for (i = 1; i < MAX_HISTORY; i++) history[i-1] = history[i];] *)
Definition shift_down (h : list (option string)) : list (option string) :=
  foldl (fun h i => <[(i - 1)%nat := default None (h !! i)]> h)
        h (seq 1 (MAX_HISTORY - 1)).

Definition add_to_history (command : string) (s : hist) : hist :=
  let command := trim_newline command in
  if (strlen command =? 0)%nat then s
  else if (history_count s <? MAX_HISTORY)%nat then
    Hist (<[history_count s := Some command]> (history s))
         (S (history_count s))
  else
    Hist (<[(MAX_HISTORY - 1)%nat := Some command]> (shift_down (history s)))
         (history_count s).

(** Lines 75-80; [None] is the null pointer. *)
Definition get_history_command (index : Z) (s : hist) : option string :=
  if (index <=? 0) || (Z.of_nat (history_count s) <? index) then None
  else default None (history s !! Z.to_nat (index - 1)).

(** The entries that are in the store, oldest first. *)
Definition resident (s : hist) : list string :=
  omap id (take (history_count s) (history s)).

(** The store after the lines [lines] were handed to [add_to_history] one
    after the other, starting from the empty store. *)
Definition record_all (lines : list string) : hist :=
  foldl (fun s l => add_to_history l s) history_init lines.

End History.

Definition MAX_HISTORY : nat := 50.

(** ** The operating system as seen by the shell *)

(** The three ways [handle_redirection] opens a file:
    [O_RDONLY], [O_WRONLY | O_CREAT | O_APPEND], [O_WRONLY | O_CREAT | O_TRUNC]. *)
Inductive oflag : Type := RdOnly | WrAppend | WrTrunc.

Inductive stdfd : Type := STDIN_FILENO | STDOUT_FILENO.

(** What a standard stream of a process is bound to: the stream inherited
    from the shell, one end of pipe number [i] of a pipeline, or a file. *)
Inductive endpoint : Type :=
| Inherited
| PipeRead (i : nat)
| PipeWrite (i : nat)
| File (path : string) (flags : oflag).

Record stdio : Type := Stdio { io_stdin : endpoint; io_stdout : endpoint }.

Definition io_inherited : stdio := Stdio Inherited Inherited.

(** [dup2(fd, target)] *)
Definition rebind (target : stdfd) (e : endpoint) (io : stdio) : stdio :=
  match target with
  | STDIN_FILENO => Stdio e (io_stdout io)
  | STDOUT_FILENO => Stdio (io_stdin io) e
  end.

(** Outcomes of the system calls.  Calls made by the shell itself step the
    state [W] of the system; calls made inside a child between [fork] and
    [execvp] are answered by [sys_open], [sys_dup2] and [sys_exec].
    [sys_exec argv io] is [None] when [execvp] returns -1 and [Some status]
    when the program runs, [status] being its exit status.  [sys_readdir]
    lists the current directory ([None]: [opendir] failed), [sys_malloc n]
    gives the bytes found in a fresh block of [n] bytes, and [atoi_overflow]
    is what the C library makes of a number that does not fit an [int],
    which C leaves open.  Standard input is not part of [W]: the functions
    that read it take the bytes still to come as a list, after which every
    [read] reports the end of the input. *)
Record OS (W : Type) : Type := {
  sys_fork : W -> option Z * W;
  sys_pipe : W -> bool * W;
  sys_readdir : W -> option (list string) * W;
  sys_malloc : nat -> W -> list ascii * W;
  sys_open : string -> oflag -> bool;
  sys_dup2 : endpoint -> stdfd -> bool;
  sys_exec : list string -> stdio -> option Z;
  atoi_overflow : Z -> Z
}.
Arguments sys_fork {W} _ _.
Arguments sys_pipe {W} _ _.
Arguments sys_readdir {W} _ _.
Arguments sys_malloc {W} _ _ _.
Arguments sys_open {W} _ _ _.
Arguments sys_dup2 {W} _ _ _.
Arguments sys_exec {W} _ _ _.
Arguments atoi_overflow {W} _ _.

Definition EXIT_SUCCESS : Z := 0.
Definition EXIT_FAILURE : Z := 1.

(** ** Redirection ([sh1.c], lines 118-198) *)

(** The operators in the order in which the loop tests them, each with the
    flags it opens its file with and the stream it replaces. *)
Definition redir_op (tok : string) : option (oflag * stdfd) :=
  if streq tok "<" then Some (RdOnly, STDIN_FILENO)
  else if streq tok ">>" then Some (WrAppend, STDOUT_FILENO)
  else if streq tok ">" then Some (WrTrunc, STDOUT_FILENO)
  else None.

Definition is_redir_op (tok : string) : bool :=
  match redir_op tok with Some _ => true | None => false end.

(** The three ways the function returns -1, told apart by what it prints:
    ["Error: no file specified for ... redirection"], [perror("open")],
    [perror("dup2")]. *)
Inductive redir_error : Type :=
| NoFileSpecified (op : string)
| OpenError (path : string)
| Dup2Error (path : string).

(** Return value 0 comes with the argument array as the function left it and
    with the standard streams as rebound by it. *)
Inductive redir_result : Type :=
| RedirOk (args : list string) (io : stdio)
| RedirErr (e : redir_error).

Definition redir_ret (r : redir_result) : Z :=
  match r with RedirOk _ _ => 0 | RedirErr _ => -1 end.

Section Redirection.
Context {W : Type} (os : OS W).

(** The argument is the part of the array from index [i] on; tokens before
    [i] were kept and are consed back on return.  Removing [args[i]] and
    [args[i+1]] by shifting the tail two places down and rechecking index
    [i] is the recursive call on the tail after the file name. *)
Fixpoint handle_redirection (args : list string) (io : stdio) : redir_result :=
  match args with
  | [] => RedirOk [] io
  | tok :: rest =>
    match redir_op tok with
    | Some (flags, target) =>
      match rest with
      | [] => RedirErr (NoFileSpecified tok)
      | path :: rest' =>
        if negb (sys_open os path flags) then RedirErr (OpenError path)
        else if negb (sys_dup2 os (File path flags) target)
             then RedirErr (Dup2Error path)
        else handle_redirection rest' (rebind target (File path flags) io)
      end
    | None =>
      match handle_redirection rest io with
      | RedirOk args' io' => RedirOk (tok :: args') io'
      | RedirErr e => RedirErr e
      end
    end
  end.

(** The same function on the argument array itself, with the index [i],
    the shifting loop and the null pointers ([None]) that end a segment.
    Reading a slot outside the array is not defined by C; it reads as null
    here.  [fuel] bounds the passes through a loop. *)
Definition slot (args : list (option string)) (i : nat) : option string :=
  default None (args !! i).

(** Lines 138-144. *)
Fixpoint shift_args (fuel : nat) (args : list (option string)) (j : nat)
  : list (option string) :=
  match fuel with
  | O => args
  | S fuel' =>
    match slot args (j + 2) with
    | Some tok => shift_args fuel' (<[j := Some tok]> args) (S j)
    | None => <[S j := None]> (<[j := None]> args)
    end
  end.

(** The result is the error printed, if the function returns -1, the
    array and the standard streams. *)
Fixpoint handle_redirection_at (fuel : nat) (args : list (option string))
         (i : nat) (io : stdio)
  : option redir_error * list (option string) * stdio :=
  match fuel with
  | O => (None, args, io)
  | S fuel' =>
    match slot args i with
    | None => (None, args, io)
    | Some tok =>
      match redir_op tok with
      | Some (flags, target) =>
        match slot args (i + 1) with
        | None => (Some (NoFileSpecified tok), args, io)
        | Some path =>
          if negb (sys_open os path flags) then (Some (OpenError path), args, io)
          else if negb (sys_dup2 os (File path flags) target)
               then (Some (Dup2Error path), args, io)
          else handle_redirection_at fuel' (shift_args (length args) args i) i
                                     (rebind target (File path flags) io)
        end
      | None => handle_redirection_at fuel' args (S i) io
      end
    end
  end.

Definition handle_redirection_array (args : list (option string)) (io : stdio)
  : option redir_error * list (option string) * stdio :=
  handle_redirection_at (length args) args 0 io.

End Redirection.

(** ** Processes and the trace of the shell *)

(** Why a child calls [exit(EXIT_FAILURE)] before it reaches [execvp]. *)
Inductive child_error : Type :=
| PipeDup2Failed
| RedirectionFailed (e : redir_error).

(** What a forked child does: it either gives up before [execvp], or it calls
    [execvp(argv[0], argv)] with its standard streams bound as in [io]. *)
Inductive child : Type :=
| ChildExit (status : Z) (why : child_error)
| ChildExec (argv : list string) (io : stdio).

Inductive event : Type :=
| RawMode (on : bool)              (* enableRawMode / disableRawMode *)
| Prompt                           (* printf("utsh$ ") *)
| PutChar (c : ascii)              (* putchar(c) *)
| Erase                            (* printf("\b \b") *)
| NewLine                          (* printf("\n") *)
| ListMatches (names : list string) (buffer : string)
                                   (* the listing printed by autocomplete *)
| Echo (line : string)             (* printf("%s\n", line) *)
| NoSuchCommand                    (* "No such command in history." *)
| Perror (what : string)           (* perror(what) in the shell *)
| Forked (pid : Z) (c : child)     (* fork() returned pid to the shell *)
| Waited (pid : option Z)          (* waitpid(pid, NULL, 0) or wait(NULL) *)
| BackgroundPid (pid : Z)          (* "[Background pid %d]" *)
| BackgroundPipeline.              (* "[Background pipeline started]" *)

(** A call either returns a value or ends the shell through [exit]; both
    come with the state the system is left in and the events of the call. *)
Inductive outcome (W A : Type) : Type :=
| Returned (a : A) (w : W) (t : list event)
| Exited (status : Z) (w : W) (t : list event).
Arguments Returned {W A} _ _ _.
Arguments Exited {W A} _ _ _.

Definition M (W A : Type) : Type := W -> outcome W A.

Definition retM {W A} (a : A) : M W A := fun w => Returned a w [].

Definition bindM {W A B} (m : M W A) (f : A -> M W B) : M W B :=
  fun w =>
    match m w with
    | Returned a w1 t1 =>
      match f a w1 with
      | Returned b w2 t2 => Returned b w2 (t1 ++ t2)
      | Exited s w2 t2 => Exited s w2 (t1 ++ t2)
      end
    | Exited s w1 t1 => Exited s w1 t1
    end.

Definition emit {W} (e : event) : M W unit := fun w => Returned tt w [e].

Definition exit {W A} (status : Z) : M W A := fun w => Exited status w [].

(** A system call of the shell itself. *)
Definition call {W A} (f : W -> A * W) : M W A :=
  fun w => let '(a, w1) := f w in Returned a w1 [].

Global Instance M_bind {W} : MBind (M W) := fun A B f m => bindM m f.

(** The events of an outcome and the value it returns, if any. *)
Definition events {W A} (o : outcome W A) : list event :=
  match o with Returned _ _ t => t | Exited _ _ t => t end.

Definition returned {W A} (o : outcome W A) : option A :=
  match o with Returned a _ _ => Some a | Exited _ _ _ => None end.

(** The children created during a trace, in the order of creation. *)
Definition children (t : list event) : list child :=
  omap (fun e => match e with Forked _ c => Some c | _ => None end) t.

Section Execution.
Context {W : Type} (os : OS W).

(** [execvp(argv[0], argv)]: with a null [argv[0]] no program is started. *)
Definition execvp (argv : list string) (io : stdio) : option Z :=
  match argv with
  | [] => None
  | _ :: _ => sys_exec os argv io
  end.

(** The exit status a child ends with: a child whose [execvp] fails goes
    on to [exit(EXIT_FAILURE)]. *)
Definition child_status (c : child) : Z :=
  match c with
  | ChildExit status _ => status
  | ChildExec argv io =>
    match execvp argv io with
    | Some status => status
    | None => EXIT_FAILURE
    end
  end.

(** The program a child runs, if it gets to run one. *)
Definition child_runs (c : child) : option (list string) :=
  match c with
  | ChildExit _ _ => None
  | ChildExec argv io =>
    match execvp argv io with
    | Some _ => Some argv
    | None => None
    end
  end.

(** Lines 237-243: the child of a command without pipes. *)
Definition child_single (args : list string) : child :=
  match handle_redirection os args io_inherited with
  | RedirErr e => ChildExit EXIT_FAILURE (RedirectionFailed e)
  | RedirOk argv io => ChildExec argv io
  end.

(** Lines 289-314: child number [i] of a pipeline of [num_commands]
    commands, [cmd] being [cmds[i]]. *)
Definition child_pipeline (i num_commands : nat) (cmd : list string) : child :=
  if negb (i =? 0)%nat && negb (sys_dup2 os (PipeRead (i - 1)) STDIN_FILENO)
  then ChildExit EXIT_FAILURE PipeDup2Failed
  else
    let io1 := if negb (i =? 0)%nat
               then rebind STDIN_FILENO (PipeRead (i - 1)) io_inherited
               else io_inherited in
    if negb (i =? num_commands - 1)%nat
       && negb (sys_dup2 os (PipeWrite i) STDOUT_FILENO)
    then ChildExit EXIT_FAILURE PipeDup2Failed
    else
      let io2 := if negb (i =? num_commands - 1)%nat
                 then rebind STDOUT_FILENO (PipeWrite i) io1
                 else io1 in
      match handle_redirection os cmd io2 with
      | RedirErr e => ChildExit EXIT_FAILURE (RedirectionFailed e)
      | RedirOk argv io => ChildExec argv io
      end.

(** Lines 258-270: the segments between the ["|"] tokens. *)
Fixpoint split_pipes (args : list string) : list (list string) :=
  match args with
  | [] => [[]]
  | tok :: rest =>
    if streq tok "|" then [] :: split_pipes rest
    else match split_pipes rest with
         | cmd :: cmds => (tok :: cmd) :: cmds
         | [] => [[tok]]
         end
  end.

(** Lines 227-232. *)
Definition count_commands (args : list string) : nat :=
  1 + length (filter (fun tok => streq tok "|" = true) args).

(** Lines 278-283. *)
Fixpoint create_pipes (num_pipes : nat) : M W unit :=
  match num_pipes with
  | O => retM tt
  | S n =>
    ok ← call (sys_pipe os);
    if ok : bool then create_pipes n
    else emit (Perror "pipe");; exit EXIT_FAILURE
  end.

(** Lines 287-320: [cmds] are the segments from number [i] on. *)
Fixpoint fork_commands (i num_commands : nat) (cmds : list (list string))
  : M W unit :=
  match cmds with
  | [] => retM tt
  | cmd :: cmds' =>
    pid ← call (sys_fork os);
    match pid with
    | None => emit (Perror "fork");; exit EXIT_FAILURE
    | Some pid =>
      emit (Forked pid (child_pipeline i num_commands cmd));;
      fork_commands (S i) num_commands cmds'
    end
  end.

(** Lines 329-331. *)
Fixpoint wait_all (n : nat) : M W unit :=
  match n with
  | O => retM tt
  | S n' => emit (Waited None);; wait_all n'
  end.

(** Lines 217-224: a trailing ["&"] is cut off the array. *)
Definition is_background (args : list string) : bool :=
  match last args with
  | Some tok => streq tok "&"
  | None => false
  end.

Definition strip_background (args : list string) : list string :=
  if is_background args then removelast args else args.

Definition sh_execute_simple (args : list string) : M W Z :=
  match args with
  | [] => retM 0
  | _ :: _ =>
    let background := is_background args in
    let args := strip_background args in
    let num_commands := count_commands args in
    if (num_commands =? 1)%nat then
      pid ← call (sys_fork os);
      match pid with
      | None => emit (Perror "fork");; retM 0
      | Some pid =>
        emit (Forked pid (child_single args));;
        (if background then emit (BackgroundPid pid)
         else emit (Waited (Some pid)));;
        retM 0
      end
    else
      let cmds := split_pipes args in
      let num_pipes := (num_commands - 1)%nat in
      create_pipes num_pipes;;
      fork_commands 0 num_commands cmds;;
      (if background then emit BackgroundPipeline
       else wait_all num_commands);;
      retM 0
  end.

(** Lines 346-354: the segment up to the next ["&&"] or ["||"], that
    operator, and the tokens after it. *)
Fixpoint find_op (args : list string)
  : list string * option (string * list string) :=
  match args with
  | [] => ([], None)
  | tok :: rest =>
    if negb (streq tok "&&") && negb (streq tok "||") then
      let '(seg, op) := find_op rest in (tok :: seg, op)
    else ([], Some (tok, rest))
  end.

(** The [while] loop of [sh_execute_logical]; [args] is the array from
    [start] on.  [fuel] bounds the number of segments. *)
Fixpoint sh_execute_logical_loop (fuel : nat) (args : list string) (ret : Z)
  : M W Z :=
  match fuel with
  | O => retM ret
  | S fuel' =>
    match args with
    | [] => retM ret
    | _ :: _ =>
      let '(seg, op) := find_op args in
      ret ← sh_execute_simple seg;
      match op with
      | None => retM ret
      | Some (op, rest) =>
        if streq op "&&" then
          if negb (ret =? 0) then retM ret
          else sh_execute_logical_loop fuel' rest ret
        else if streq op "||" then
          if ret =? 0 then retM ret
          else sh_execute_logical_loop fuel' rest ret
        else sh_execute_logical_loop fuel' rest ret
      end
    end
  end.

Definition sh_execute_logical (args : list string) : M W Z :=
  sh_execute_logical_loop (length args) args 0.

End Execution.

(** ** Characters and the tokenizer ([sh1.c], lines 83-110) *)

Definition NUL : ascii := "000"%char.

Definition char_code (c : ascii) : Z := Z.of_nat (nat_of_ascii c).

Definition isdigit (c : ascii) : bool :=
  (48 <=? char_code c) && (char_code c <=? 57).

(** [isspace] in the C locale: space and the characters 9 to 13. *)
Definition isspace (c : ascii) : bool :=
  (char_code c =? 32) || ((9 <=? char_code c) && (char_code c <=? 13)).

(** [#define TOKEN_DELIM " \t\r\n\a"] *)
Definition TOKEN_DELIM : list ascii :=
  [" "%char; "009"%char; "013"%char; "010"%char; "007"%char].

Definition is_delim (delim : list ascii) (c : ascii) : bool :=
  existsb (Ascii.eqb c) delim.

(** The tokens that repeated calls of [strtok(..., delim)] cut out of a
    string: the maximal runs of characters that are not delimiters.
    [token] is the run collected so far. *)
Fixpoint strtok_from (delim : list ascii) (line : string) (token : string)
  : list string :=
  match line with
  | EmptyString => if streq token "" then [] else [token]
  | String c rest =>
    if is_delim delim c then
      if streq token "" then strtok_from delim rest ""
      else token :: strtok_from delim rest ""
    else strtok_from delim rest (token +:+ String c "")
  end.

Definition strtok_all (delim : list ascii) (line : string) : list string :=
  strtok_from delim line "".

Definition sh_split_line (line : string) : list string :=
  strtok_all TOKEN_DELIM line.

(** The C string that starts at the beginning of a block of memory: the
    characters before the first NUL. *)
Fixpoint cstring (mem : list ascii) : string :=
  match mem with
  | [] => ""
  | c :: mem' => if Ascii.eqb c NUL then "" else String c (cstring mem')
  end.

Definition chars (s : string) : list ascii := String.list_ascii_of_string s.

(** ** [atoi] *)

Definition INT_MAX : Z := 2147483647.
Definition INT_MIN : Z := -2147483648.

Fixpoint skip_space (s : string) : string :=
  match s with
  | String c rest => if isspace c then skip_space rest else s
  | EmptyString => s
  end.

(** The value of the digits a string starts with. *)
Fixpoint digits_value (s : string) (acc : Z) : Z :=
  match s with
  | String c rest =>
    if isdigit c then digits_value rest (10 * acc + (char_code c - 48))
    else acc
  | EmptyString => acc
  end.

Definition atoi_value (s : string) : Z :=
  match skip_space s with
  | String "-" rest => - digits_value rest 0
  | String "+" rest => digits_value rest 0
  | s' => digits_value s' 0
  end.

Section LineEditor.
Context {W : Type} (os : OS W).

Definition atoi (s : string) : Z :=
  let v := atoi_value s in
  if (INT_MIN <=? v) && (v <=? INT_MAX) then v else atoi_overflow os v.

(** ** The line editor ([sh1.c], lines 374-475) *)

Definition BUFFER_SIZE : nat := 1024.
Definition MAX_MATCHES : nat := 50.

Definition malloc (n : nat) : M W (list ascii) :=
  bytes ← call (sys_malloc os n);
  retM (resize n NUL bytes).

(** Lines 425-428: the index at which the word that ends at [pos] starts. *)
Fixpoint word_start (buffer : list ascii) (pos : nat) : nat :=
  match pos with
  | O => O
  | S p =>
    if bool_decide (buffer !! p = Some " "%char) then pos
    else word_start buffer p
  end.

(** Lines 441-448: the entries that start with [partial], in the order
    [readdir] hands them out; the loop is left after [MAX_MATCHES] hits. *)
Definition find_matches (partial : string) (entries : list string)
  : list string :=
  take MAX_MATCHES
       (filter (fun name => String.prefix partial name = true) entries).

(** Lines 456-460.  A store past the end of the block is outside what C
    defines; here it leaves the block as it is. *)
Fixpoint append_chars (cs : list ascii) (buffer : list ascii) (pos : nat)
  : M W (list ascii * nat) :=
  match cs with
  | [] => retM (buffer, pos)
  | c :: cs' =>
    emit (PutChar c);;
    append_chars cs' (<[pos := c]> buffer) (S pos)
  end.

Definition autocomplete (buffer : list ascii) (pos : nat)
  : M W (list ascii * nat) :=
  let start := word_start buffer pos in
  let len := (pos - start)%nat in
  let partial := cstring (take len (drop start buffer)) in
  dir ← call (sys_readdir os);
  match dir with
  | None => retM (buffer, pos)
  | Some entries =>
    match find_matches partial entries with
    | [] => retM (buffer, pos)
    | [name] => append_chars (drop len (chars name)) buffer pos
    | names => emit (ListMatches names (cstring buffer));; retM (buffer, pos)
    end
  end.

(** The [while (1)] loop of [sh_read_line]; [input] holds the bytes that
    [read] is still going to deliver.  The result is the buffer and the
    input that is left. *)
Fixpoint sh_read_line_loop (input : list ascii) (buffer : list ascii)
         (pos bufsize : nat) : M W (list ascii * list ascii) :=
  match input with
  | [] => retM (buffer, [])
  | c :: input' =>
    if Ascii.eqb c "013"%char || Ascii.eqb c "010"%char then
      emit NewLine;;
      retM (<[pos := NUL]> buffer, input')
    else
      '(buffer, pos) ←
        (if Ascii.eqb c "127"%char || Ascii.eqb c "008"%char then
           if (0 <? pos)%nat then emit Erase;; retM (buffer, (pos - 1)%nat)
           else retM (buffer, pos)
         else if Ascii.eqb c "009"%char then autocomplete buffer pos
         else emit (PutChar c);; retM (<[pos := c]> buffer, S pos));
      if (bufsize - 1 <=? pos)%nat then
        more ← malloc BUFFER_SIZE;
        sh_read_line_loop input' (buffer ++ more) pos (bufsize + BUFFER_SIZE)
      else sh_read_line_loop input' buffer pos bufsize
  end.

Definition sh_read_line (input : list ascii) : M W (list ascii * list ascii) :=
  emit (RawMode true);;
  buffer ← malloc BUFFER_SIZE;
  r ← sh_read_line_loop input buffer 0 BUFFER_SIZE;
  emit (RawMode false);;
  retM r.

(** ** The main loop ([sh1.c], lines 482-519) *)

(** Line 493: [line[0] == '!' && isdigit(line[1])]. *)
Definition is_history_invocation (line : string) : bool :=
  match line with
  | String c0 rest =>
    Ascii.eqb c0 "!"%char &&
    match rest with String c1 _ => isdigit c1 | EmptyString => false end
  | EmptyString => false
  end.

(** [&line[1]] *)
Definition string_tail (line : string) : string :=
  match line with String _ rest => rest | EmptyString => "" end.

(** Lines 507-509: [add_to_history] cuts a trailing newline off [line]
    itself, so the tokenizer sees the line as cut. *)
Definition record_and_execute (line : string) (h : hist) : M W (Z * hist) :=
  let h' := add_to_history MAX_HISTORY line h in
  let line := trim_newline line in
  let args := sh_split_line line in
  status ← sh_execute_logical os args;
  retM (status, h').

(** Lines 493-509 for the line that [sh_read_line] returned.  [status] is
    what the variable holds before; it is kept when the iteration is left
    through [continue]. *)
Definition process_line (line : string) (status : Z) (h : hist)
  : M W (Z * hist) :=
  if is_history_invocation line then
    let cmd_num := atoi (string_tail line) in
    match get_history_command cmd_num h with
    | Some history_command =>
      emit (Echo history_command);;
      record_and_execute history_command h
    | None =>
      emit NoSuchCommand;;
      retM (status, h)
    end
  else record_and_execute line h.

(** One pass through the body of the [do ... while]. *)
Definition sh_loop_body (status : Z) (h : hist) (input : list ascii)
  : M W (Z * hist * list ascii) :=
  emit Prompt;;
  '(buffer, input') ← sh_read_line input;
  '(status', h') ← process_line (cstring buffer) status h;
  retM (status', h', input').

(** [sh_loop] run for at most [fuel] passes.  The result is [Some h] when
    the loop was left, [h] being the history at that point, and [None]
    when it is still running after [fuel] passes.  [status] is declared
    without a value. *)
Fixpoint sh_loop (fuel : nat) (status : Z) (h : hist) (input : list ascii)
  : M W (option hist) :=
  match fuel with
  | O => retM None
  | S fuel' =>
    '(status', h', input') ← sh_loop_body status h input;
    if 0 <=? status' then sh_loop fuel' status' h' input'
    else retM (Some h')
  end.

(** [main]: the exit status of the shell, if the loop is ever left. *)
Definition main (fuel : nat) (status : Z) (input : list ascii)
  : M W (option Z) :=
  r ← sh_loop fuel status (history_init MAX_HISTORY) input;
  retM (match r with Some _ => Some EXIT_SUCCESS | None => None end).

End LineEditor.

(** ** The line-buffered shell (first program of the unnamed source file) *)

Module Simple.

(** What the shell prints for [history], and the hand-over of a command to
    the parser and the process functions (lines 484-533), none of which
    refers to the history. *)
Inductive event : Type :=
| HistoryLine (n : Z) (line : string)    (* printf("%d %s\n", i + 1, history[i]) *)
| Execute (cmd_str : string).

(** Lines 40-68.  The array grows by doubling, so nothing is ever dropped. *)
Definition add_history (line : string) (history : list string) : list string :=
  history ++ [trim_newline line].

(** Lines 70-75. *)
Definition print_history (history : list string) : list event :=
  imap (fun i line => HistoryLine (Z.of_nat i + 1) line) history.

(** Line 447: [p] is moved past blanks, tabs and newlines. *)
Fixpoint skip_blank (p : string) : string :=
  match p with
  | String c rest =>
    if Ascii.eqb c " "%char || Ascii.eqb c "009"%char || Ascii.eqb c "010"%char
    then skip_blank rest else p
  | EmptyString => p
  end.

(** Lines 464-465. *)
Fixpoint skip_leading (cmd_str : string) : string :=
  match cmd_str with
  | String c rest =>
    if Ascii.eqb c " "%char || Ascii.eqb c "009"%char
    then skip_leading rest else cmd_str
  | EmptyString => cmd_str
  end.

(** Lines 467-471: blanks, tabs and newlines are cut off the end. *)
Fixpoint trim_trailing (cmd_str : string) : string :=
  match cmd_str with
  | String c rest =>
    let rest' := trim_trailing rest in
    if streq rest' ""
       && (Ascii.eqb c " "%char || Ascii.eqb c "009"%char || Ascii.eqb c "010"%char)
    then "" else String c rest'
  | EmptyString => ""
  end.

(** Lines 462-533: one command of a line. *)
Definition main_command (cmd_str : string) (history : list string)
  : list string * list event :=
  let cmd_str := trim_trailing (skip_leading cmd_str) in
  if (strlen cmd_str =? 0)%nat then (history, [])
  else if streq cmd_str "history" then (history, print_history history)
  else (add_history cmd_str history, [Execute cmd_str]).

(** Lines 445-537: one line that [read_line] returned. *)
Definition main_line (line : string) (history : list string)
  : list string * list event :=
  if (strlen (skip_blank line) =? 0)%nat then (history, [])
  else
    foldl (fun '(h, t) cmd_str =>
             let '(h', t') := main_command cmd_str h in (h', t ++ t'))
          (history, []) (strtok_all [";"%char] line).

End Simple.

(** ** A small system to run the shell on

    Every call succeeds, [fork] hands out the process ids 100, 101, ...,
    fresh memory is zeroed, the directory holds two files, and the programs
    [true], [false], [echo], [ls], [cat] and [pwd] exist, [false] being the one
    that ends with status 1. *)
Definition demo_exec (argv : list string) (io : stdio) : option Z :=
  match argv with
  | prog :: _ =>
    if streq prog "false" then Some 1
    else if streq prog "true" || streq prog "echo" || streq prog "ls"
            || streq prog "cat" || streq prog "pwd" then Some 0
    else None
  | [] => None
  end.

Definition demo_os : OS nat := {|
  sys_fork := fun n => (Some (100 + Z.of_nat n), S n);
  sys_pipe := fun n => (true, n);
  sys_readdir := fun n => (Some ["foo.txt"; "foobar.txt"], n);
  sys_malloc := fun size n => (replicate size NUL, n);
  sys_open := fun _ _ => true;
  sys_dup2 := fun _ _ => true;
  sys_exec := demo_exec;
  atoi_overflow := fun v => v
|}.

(** ** Notions the statements are phrased in *)

(** The lines that [add_to_history] stores when it is given [lines] one
    after the other: each with its trailing newline cut, empty ones left
    out.  This is the sequence of all entries ever recorded. *)
Definition recorded (lines : list string) : list string :=
  filter (fun c => c ≠ "") (trim_newline <$> lines).

(** The last [n] elements of a list. *)
Definition lastn {A} (n : nat) (l : list A) : list A :=
  drop (length l - n) l.

(** What one call of [add_to_history] does to the resident entries [l] of a
    store of capacity [cap]. *)
Definition push (cap : nat) (command : string) (l : list string) : list string :=
  let c := trim_newline command in
  if streq c "" then l
  else if (length l <? cap)%nat then l ++ [c]
  else drop 1 l ++ [c].

(** Recall as the specification words it: [n] counts through all entries
    ever recorded ([log]); it misses when [n] is not positive, when it is
    beyond the number of entries recorded, and when entry [n] was evicted
    from a store of capacity [cap]. *)
Definition recall_spec (cap : nat) (log : list string) (n : Z) : option string :=
  if (n <=? 0) || (Z.of_nat (length log) <? n)
     || (n <=? Z.of_nat (length log - cap))
  then None
  else log !! Z.to_nat (n - 1).

(** The number of redirection operators a segment ends with: the length of
    its longest suffix made of operator tokens only. *)
Fixpoint trailing_ops (args : list string) : nat :=
  match args with
  | [] => 0
  | tok :: rest =>
    if forallb is_redir_op args then length args else trailing_ops rest
  end.

(** Whether the scan of [handle_redirection] ends on an operator that has
    no token after it, every operator before it having taken the token that
    follows it as its file name. *)
Fixpoint dangling (args : list string) : bool :=
  match args with
  | [] => false
  | tok :: rest =>
    if is_redir_op tok then
      match rest with
      | [] => true
      | _ :: rest' => dangling rest'
      end
    else dangling rest
  end.

(** Systems in which the shell can always create a process, a pipe. *)
Definition forks_succeed {W} (os : OS W) : Prop :=
  ∀ w, ∃ pid w', sys_fork os w = (Some pid, w').

Definition pipes_succeed {W} (os : OS W) : Prop :=
  ∀ w, ∃ w', sys_pipe os w = (true, w').





(** Lines 507-509 spelled out: the line is stored and its tokens are run. *)
Definition recorded_and_run {W} (os : OS W) (line : string) (h : hist)
  : M W (Z * hist) :=
  status ← sh_execute_logical os (sh_split_line (trim_newline line));
  retM (status, add_to_history MAX_HISTORY line h).

(** [l] lists the entries of the store [s] of capacity [MAX]: the first
    [length l] slots of the array hold the elements of [l]. *)
Definition represents (MAX : nat) (s : hist) (l : list string) : Prop :=
  history_count s = length l ∧
  length (history s) = MAX ∧
  (length l ≤ MAX)%nat ∧
  take (length l) (history s) = Some <$> l.

(** What is known about the outcome of a call: [Q] holds of the value if it
    returns, [E] of the status if it ends the shell. *)
Definition ensures {W A} (o : outcome W A) (Q : A → Prop) (E : Z → Prop) : Prop :=
  match o with
  | Returned a _ _ => Q a
  | Exited status _ _ => E status
  end.

Definition fails_only (status : Z) : Prop := status = EXIT_FAILURE.

(** A well-formed token: not empty and free of delimiter characters. *)
Definition token_ok (delim : list ascii) (tok : string) : bool :=
  negb (streq tok "") && forallb (fun c => negb (is_delim delim c)) (chars tok).

(** The tokens written in a row with the character [d] between them. *)
Fixpoint join_tokens (d : ascii) (toks : list string) : string :=
  match toks with
  | [] => ""
  | [tok] => tok
  | tok :: rest => tok +:+ String d (join_tokens d rest)
  end.

(** The number of times the shell waits for a child in a trace, and whether
    it announces a background job. *)
Definition is_wait (e : event) : bool :=
  match e with Waited _ => true | _ => false end.

Definition count_waits (t : list event) : nat :=
  length (filter (fun e => is_wait e = true) t).

Definition announces_background (t : list event) : bool :=
  existsb (fun e => match e with
                    | BackgroundPid _ | BackgroundPipeline => true
                    | _ => false
                    end) t.

(** The streams child number [i] of [n] gets from the pipes alone. *)
Definition pipe_io (i n : nat) : stdio :=
  Stdio (if (i =? 0)%nat then Inherited else PipeRead (i - 1))
        (if (i =? n - 1)%nat then Inherited else PipeWrite i).

(** No token of the list is a logical operator. *)
Definition no_logical_op (args : list string) : bool :=
  forallb (fun tok => negb (streq tok "&&") && negb (streq tok "||")) args.




(** The events of running a line: messages, processes, waits. *)
Definition run_event (e : event) : bool :=
  match e with
  | Echo _ | NoSuchCommand | Perror _ | Forked _ _ | Waited _
  | BackgroundPid _ | BackgroundPipeline => true
  | _ => false
  end.





(** * Properties *)

(** ** The history store *)

Lemma string_length_snoc (s : string) (c : ascii) :
  String.length (s +:+ String c "") = S (String.length s).
Proof. induction s as [|c' s IH]; simpl; [done | by rewrite IH]. Qed.

Lemma string_get_snoc (s : string) (c : ascii) :
  String.get (String.length s) (s +:+ String c "") = Some c.
Proof. induction s as [|c' s IH]; simpl; done. Qed.

Lemma string_substring_snoc (s : string) (c : ascii) :
  String.substring 0 (String.length s) (s +:+ String c "") = s.
Proof. induction s as [|c' s IH]; simpl; [done | by rewrite IH]. Qed.

Lemma trim_newline_snoc (s : string) :
  trim_newline (s +:+ String newline "") = s.
Proof.
  unfold trim_newline, strlen.
  rewrite string_length_snoc.
  replace (S (String.length s) - 1)%nat with (String.length s) by lia.
  rewrite string_get_snoc, bool_decide_eq_true_2 by done. simpl.
  apply string_substring_snoc.
Qed.

Lemma foldl_insert_length {A} (f : list A → nat → nat) (g : list A → nat → A)
      (l : list A) (idx : list nat) :
  length (foldl (fun h i => <[f h i := g h i]> h) l idx) = length l.
Proof.
  revert l. induction idx as [|i idx IH]; intros l; simpl; [done|].
  by rewrite IH, length_insert.
Qed.

Lemma lastn_length {A} (n : nat) (l : list A) :
  length (lastn n l) = (length l `min` n)%nat.
Proof. unfold lastn. rewrite length_drop. lia. Qed.

Section HistoryFacts.
Variable MAX : nat.
Hypothesis MAX_pos : (0 < MAX)%nat.

Lemma represents_init : represents MAX (history_init MAX) [].
Proof.
  unfold represents, history_init; simpl.
  rewrite length_replicate. repeat split; try lia; done.
Qed.

Lemma represents_resident s l : represents MAX s l → resident s = l.
Proof.
  intros (Hc & _ & _ & Ht). unfold resident. rewrite Hc, Ht.
  clear. induction l as [|x l IH]; [done|]. rewrite fmap_cons. simpl. by f_equal.
Qed.

Lemma represents_lookup s l i :
  represents MAX s l → (i < length l)%nat → history s !! i = Some <$> (l !! i).
Proof.
  intros (_ & _ & _ & Ht) Hi.
  rewrite <- (lookup_take_lt (history s) (length l) i) by done.
  by rewrite Ht, list_lookup_fmap.
Qed.

(** The state of the array after [k] rounds of the shifting loop. *)
Lemma shift_steps (h : list (option string)) (k : nat) :
  (k < length h)%nat →
  ∀ j, foldl (fun h i => <[(i - 1)%nat := default None (h !! i)]> h) h (seq 1 k) !! j
       = if decide (j < k)%nat then h !! S j else h !! j.
Proof.
  induction k as [|k IH]; intros Hk j.
  - simpl. done.
  - rewrite seq_S, foldl_app. simpl.
    replace (k - 0)%nat with k by lia.
    set (cur := foldl _ h (seq 1 k)) in *.
    assert (Hlen : length cur = length h).
    { subst cur.
      apply (foldl_insert_length (fun _ i => (i - 1)%nat)
                                 (fun h i => default None (h !! i))). }
    destruct (decide (j = k)) as [->|Hne].
    + rewrite list_lookup_insert_eq by lia.
      rewrite IH by lia.
      repeat case_decide; try lia.
      destruct (h !! S k) eqn:E; [done|].
      apply lookup_ge_None in E. lia.
    + rewrite list_lookup_insert_ne by done.
      rewrite IH by lia.
      repeat case_decide; try lia; done.
Qed.

Lemma shift_down_length h : length (shift_down MAX h) = length h.
Proof.
  apply (foldl_insert_length (fun _ i => (i - 1)%nat)
                             (fun h i => default None (h !! i))).
Qed.

Lemma shift_down_lookup h j :
  length h = MAX →
  shift_down MAX h !! j = if decide (j < MAX - 1)%nat then h !! S j else h !! j.
Proof. intros Hl. unfold shift_down. apply shift_steps. lia. Qed.

(** One call of [add_to_history] acts on the listed entries as [push]. *)
Lemma represents_add command s l :
  represents MAX s l → represents MAX (add_to_history MAX command s) (push MAX command l).
Proof.
  intros (Hc & Hl & Hle & Ht).
  unfold add_to_history, push, streq, strlen.
  destruct (trim_newline command) as [|c0 cs] eqn:Ec; simpl; [by repeat split|].
  set (c := String c0 cs).
  rewrite Hc.
  destruct (length l <? MAX)%nat eqn:Elt.
  - apply Nat.ltb_lt in Elt.
    unfold represents; simpl. rewrite length_insert, length_app; simpl.
    repeat split; [lia | done | lia |].
    replace (length l + 1)%nat with (S (length l)) by lia.
    rewrite (take_S_r _ _ (Some c)) by (apply list_lookup_insert_eq; lia).
    rewrite take_insert_ge by lia.
    by rewrite Ht, fmap_app.
  - apply Nat.ltb_ge in Elt.
    assert (length l = MAX) as Hfull by lia.
    unfold represents; simpl.
    rewrite length_insert, shift_down_length, length_app, length_drop; simpl.
    repeat split; [lia | done | lia |].
    apply list_eq; intros j.
    replace (length l - 1 + 1)%nat with MAX by lia.
    rewrite take_ge by (rewrite length_insert, shift_down_length; lia).
    rewrite take_ge in Ht by lia.
    destruct (decide (j = MAX - 1)%nat) as [->|Hne].
    + rewrite list_lookup_insert_eq by (rewrite shift_down_length; lia).
      rewrite list_lookup_fmap, lookup_app_r by (rewrite length_drop; lia).
      rewrite length_drop. replace (MAX - 1 - (length l - 1))%nat with 0%nat by lia.
      done.
    + rewrite list_lookup_insert_ne by done.
      rewrite shift_down_lookup by done.
      rewrite list_lookup_fmap.
      destruct (decide (j < MAX - 1)%nat).
      * rewrite lookup_app_l by (rewrite length_drop; lia).
        rewrite lookup_drop, Ht, list_lookup_fmap. done.
      * rewrite Ht, list_lookup_fmap.
        rewrite (lookup_ge_None_2 l j) by lia.
        rewrite lookup_ge_None_2; [done|].
        rewrite length_app, length_drop; simpl. lia.
Qed.

Lemma represents_record_all lines :
  represents MAX (record_all MAX lines) (foldl (fun l c => push MAX c l) [] lines).
Proof.
  unfold record_all.
  generalize represents_init.
  generalize (history_init MAX), (@nil string).
  induction lines as [|c lines IH]; intros s l Hs; simpl; [done|].
  apply IH. by apply represents_add.
Qed.

Lemma represents_get s l (index : Z) :
  represents MAX s l →
  get_history_command index s =
    if (index <=? 0) || (Z.of_nat (length l) <? index) then None
    else l !! Z.to_nat (index - 1).
Proof.
  intros Hs. unfold get_history_command.
  destruct Hs as (Hc & Hrest). rewrite Hc.
  destruct (index <=? 0) eqn:E0; simpl; [done|].
  destruct (Z.of_nat (length l) <? index) eqn:E1; [done|].
  apply Z.leb_gt in E0. apply Z.ltb_ge in E1.
  rewrite (represents_lookup s l) by (try (split; [done|exact Hrest]); lia).
  destruct (l !! Z.to_nat (index - 1)) eqn:E; simpl; [done|].
  apply lookup_ge_None in E. lia.
Qed.

(** The listed entries are the last [MAX] of everything recorded. *)
Lemma push_all_lastn lines :
  foldl (fun l c => push MAX c l) [] lines = lastn MAX (recorded lines).
Proof.
  induction lines as [|c lines IH] using rev_ind; [done|].
  rewrite foldl_app; simpl. rewrite IH. clear IH.
  unfold recorded. rewrite fmap_app, filter_app. simpl.
  set (r := filter _ (trim_newline <$> lines)).
  unfold push, streq.
  destruct (trim_newline c) as [|c0 cs] eqn:Ec; simpl.
  - rewrite filter_cons_False by (intros H; by apply H).
    rewrite filter_nil. by rewrite app_nil_r.
  - rewrite filter_cons_True by done. rewrite filter_nil.
    unfold lastn. rewrite length_drop, length_app. simpl.
    destruct (length r - (length r - MAX) <? MAX)%nat eqn:E.
    + apply Nat.ltb_lt in E.
      replace (length r - MAX)%nat with 0%nat by lia.
      replace (length r + 1 - MAX)%nat with 0%nat by lia. done.
    + apply Nat.ltb_ge in E.
      rewrite drop_drop.
      rewrite drop_app_le by lia.
      f_equal. f_equal. lia.
Qed.

(** The store after any run of [add_to_history] calls. *)
Lemma record_all_represents lines :
  represents MAX (record_all MAX lines) (lastn MAX (recorded lines)).
Proof. rewrite <- push_all_lastn. apply represents_record_all. Qed.

End HistoryFacts.

Lemma string_last_split (s : string) (c : ascii) :
  String.get (String.length s - 1) s = Some c →
  s = String.substring 0 (String.length s - 1) s +:+ String c "".
Proof.
  induction s as [|c0 s IH]; [done|].
  destruct s as [|c1 s1].
  - simpl. by intros [= ->].
  - replace (String.length (String c0 (String c1 s1)) - 1)%nat
      with (S (String.length (String c1 s1) - 1)) by (simpl; lia).
    remember (String c1 s1) as t eqn:Et.
    remember (String.length t - 1)%nat as n eqn:En.
    clear Et En. simpl. intros H.
    change (String c0 t = String c0 (String.substring 0 n t +:+ String c "")).
    f_equal. by apply IH.
Qed.

Lemma trim_newline_cases (command : string) :
  trim_newline command = command ∨
  command = trim_newline command +:+ String newline "".
Proof.
  unfold trim_newline, strlen.
  destruct (0 <? String.length command)%nat eqn:Hpos; simpl; [|by left].
  case_bool_decide as Hget; [right | by left].
  by apply string_last_split.
Qed.

(** C4.  [add_to_history] cuts one trailing newline off the line; a line
    that is empty after that leaves the store as it is; any other line is
    appended, and when the store already holds 50 entries the oldest one is
    dropped.  After any run of calls the store holds at most 50 entries:
    the most recent ones that were recorded, in the order of recording. *)
Theorem add_to_history_bounded_fifo (lines : list string) (command : string) :
  let s := record_all MAX_HISTORY lines in
  let c := trim_newline command in
  trim_newline (command +:+ String newline "") = command ∧
  (c = command ∨ command = c +:+ String newline "") ∧
  ((c = "" ∧ add_to_history MAX_HISTORY command s = s) ∨
   (c ≠ "" ∧
    resident (add_to_history MAX_HISTORY command s) =
      if (length (resident s) <? 50)%nat then resident s ++ [c]
      else drop 1 (resident s) ++ [c])) ∧
  (length (resident s) ≤ 50)%nat ∧
  resident s = lastn 50 (recorded lines).
Proof.
  intros s c.
  assert (Hpos : (0 < MAX_HISTORY)%nat) by (unfold MAX_HISTORY; lia).
  pose proof (record_all_represents MAX_HISTORY Hpos lines) as Hs.
  fold s in Hs.
  pose proof (represents_resident MAX_HISTORY s _ Hs) as Hres.
  split; [apply trim_newline_snoc|].
  split; [apply trim_newline_cases|].
  split; [|split].
  - destruct (decide (c = "")) as [Hc|Hc].
    + left. split; [done|].
      unfold add_to_history. fold c. by rewrite Hc.
    + right. split; [done|].
      pose proof (represents_add MAX_HISTORY Hpos command s _ Hs) as Ha.
      apply (represents_resident MAX_HISTORY) in Ha. rewrite Ha, Hres.
      unfold push. fold c. unfold streq.
      destruct (String.eqb_spec c ""); [done|]. done.
  - rewrite Hres, lastn_length. unfold MAX_HISTORY. lia.
  - exact Hres.
Qed.

(** C3, as amended.  [get_history_command n] counts through the entries that
    are in the store, oldest first, not through all entries ever recorded:
    it is null when [n <= 0] or [n] is beyond the number of entries in the
    store (never more than the capacity), and otherwise it is the [n]th entry
    of the store, which is entry [n + e] of all entries recorded when [e]
    entries were evicted. *)
Theorem get_history_command_resident (cap : nat) (lines : list string) (n : Z) :
  (0 < cap)%nat →
  let s := record_all cap lines in
  let log := recorded lines in
  let evicted := (length log - cap)%nat in
  get_history_command n s =
    (if (n <=? 0) || (Z.of_nat (length log `min` cap) <? n) then None
     else log !! (evicted + Z.to_nat (n - 1))%nat) ∧
  get_history_command n s =
    (if (n <=? 0) || (Z.of_nat (length (resident s)) <? n) then None
     else resident s !! Z.to_nat (n - 1)).
Proof.
  intros Hpos s log evicted.
  pose proof (record_all_represents cap Hpos lines) as Hs.
  fold s in Hs.
  pose proof (represents_resident cap s _ Hs) as Hres.
  rewrite Hres.
  rewrite (represents_get cap Hpos s _ n Hs).
  rewrite lastn_length. split; [|done].
  destruct ((n <=? 0) || _); [done|].
  unfold lastn. by rewrite lookup_drop.
Qed.

Lemma get_history_command_resident_witness :
  (0 < 2)%nat ∧
  get_history_command 1 (record_all 2 ["a"; "b"; "c"]) = Some "b" ∧
  get_history_command 3 (record_all 2 ["a"; "b"; "c"]) = None ∧
  get_history_command 51 (record_all MAX_HISTORY (replicate 60 "ls")) = None.
Proof.
  split; [lia|]. split; [|split].
  - apply (proj1 (get_history_command_resident 2 ["a"; "b"; "c"] 1 ltac:(lia))).
  - apply (proj1 (get_history_command_resident 2 ["a"; "b"; "c"] 3 ltac:(lia))).
  - apply (proj1 (get_history_command_resident
                    MAX_HISTORY (replicate 60 "ls") 51
                    ltac:(unfold MAX_HISTORY; lia))).
Defined.

(** C3, counterexample.  With capacity 2 and the lines a, b, c recorded, the
    first recall yields b where the claim has a miss, and the third misses
    where the claim has c; the same happens at capacity 50 once 51 lines
    were recorded. *)
Lemma get_history_command_not_logical :
  let small := ["a"; "b"; "c"] in
  let large := "a" :: replicate 49 "b" ++ ["c"] in
  (get_history_command 1 (record_all 2 small) = Some "b" ∧
   recall_spec 2 (recorded small) 1 = None) ∧
  (get_history_command 3 (record_all 2 small) = None ∧
   recall_spec 2 (recorded small) 3 = Some "c") ∧
  (get_history_command 1 (record_all MAX_HISTORY large) = Some "b" ∧
   recall_spec MAX_HISTORY (recorded large) 1 = None) ∧
  (get_history_command 51 (record_all MAX_HISTORY large) = None ∧
   recall_spec MAX_HISTORY (recorded large) 51 = Some "c").
Proof. vm_compute. repeat split. Qed.

(** ** Redirection *)

(** Induction that follows the scan: one token or two at a time. *)
Lemma list_pair_ind {A} (P : list A → Prop) :
  P [] → (∀ a, P [a]) → (∀ a b l, P l → P (b :: l) → P (a :: b :: l)) →
  ∀ l, P l.
Proof.
  intros H0 H1 H2 l.
  assert (P l ∧ ∀ a, P (a :: l)) as [H _]; [|exact H].
  induction l as [|b l [IH1 IH2]]; [by split|].
  split; [apply IH2|]. intros a. by apply H2.
Qed.

Lemma trailing_ops_all (args : list string) :
  forallb is_redir_op args = true → trailing_ops args = length args.
Proof. destruct args as [|a l]; [done|]. simpl. by intros ->. Qed.

Lemma dangling_odd (args : list string) :
  dangling args = Nat.odd (trailing_ops args).
Proof.
  induction args as [|a|a b l IH1 IH2] using list_pair_ind.
  - done.
  - simpl. by destruct (is_redir_op a).
  - change (dangling (a :: b :: l))
      with (if is_redir_op a then dangling l else dangling (b :: l)).
    change (trailing_ops (a :: b :: l))
      with (if is_redir_op a && (is_redir_op b && forallb is_redir_op l)
            then S (S (length l)) else trailing_ops (b :: l)).
    destruct (is_redir_op a) eqn:Ea; simpl andb.
    + rewrite IH1.
      change (trailing_ops (b :: l))
        with (if is_redir_op b && forallb is_redir_op l
              then S (length l) else trailing_ops l).
      destruct (is_redir_op b && forallb is_redir_op l) eqn:Eb; [|done].
      apply andb_true_iff in Eb as [_ El].
      rewrite (trailing_ops_all l El).
      symmetry. apply (Nat.odd_succ_succ (length l)).
    + by rewrite IH2.
Qed.

Section RedirectionFacts.
Context {W : Type} (os : OS W).

Lemma handle_redirection_cons_plain tok rest io :
  is_redir_op tok = false →
  handle_redirection os (tok :: rest) io =
    match handle_redirection os rest io with
    | RedirOk args' io' => RedirOk (tok :: args') io'
    | RedirErr e => RedirErr e
    end.
Proof.
  unfold is_redir_op. simpl. by destruct (redir_op tok).
Qed.

(** Without operators nothing is removed and no stream is rebound. *)
Lemma handle_redirection_plain args io :
  forallb (fun tok => negb (is_redir_op tok)) args = true →
  handle_redirection os args io = RedirOk args io.
Proof.
  induction args as [|tok rest IH]; [done|].
  simpl forallb. intros [Ht Hr]%andb_true_iff.
  apply negb_true_iff in Ht.
  rewrite handle_redirection_cons_plain by done.
  by rewrite IH.
Qed.

(** What is left is a subsequence of the segment, free of operators. *)
Lemma handle_redirection_sublist args :
  ∀ io args' io',
    handle_redirection os args io = RedirOk args' io' →
    args' `sublist_of` args ∧
    forallb (fun tok => negb (is_redir_op tok)) args' = true.
Proof.
  induction args as [|a|a b l IH1 IH2] using list_pair_ind; intros io args' io'.
  - simpl. by intros [= <- <-].
  - destruct (is_redir_op a) eqn:Ea.
    + unfold is_redir_op in Ea. simpl.
      destruct (redir_op a) as [[flags target]|]; done.
    + rewrite handle_redirection_cons_plain by done. simpl.
      intros [= <- <-]. simpl. rewrite Ea. done.
  - destruct (is_redir_op a) eqn:Ea.
    + unfold is_redir_op in Ea. simpl.
      destruct (redir_op a) as [[flags target]|]; [|done].
      destruct (negb (sys_open os b flags)); [done|].
      destruct (negb (sys_dup2 os (File b flags) target)); [done|].
      intros H. apply IH1 in H as [Hs Hf]. split; [|done].
      by do 2 apply sublist_cons.
    + rewrite handle_redirection_cons_plain by done.
      destruct (handle_redirection os (b :: l) io) as [r io1|e] eqn:E; [|done].
      intros [= <- <-]. apply IH2 in E as [Hs Hf]. split.
      * by apply sublist_skip.
      * simpl. by rewrite Ea.
Qed.

(** A missing file name is reported only by a scan that ends on an
    operator, and that operator is the last token. *)
Lemma handle_redirection_no_file args :
  ∀ io op,
    handle_redirection os args io = RedirErr (NoFileSpecified op) →
    dangling args = true ∧ last args = Some op ∧ is_redir_op op = true.
Proof.
  induction args as [|a|a b l IH1 IH2] using list_pair_ind; intros io op.
  - done.
  - destruct (is_redir_op a) eqn:Ea.
    + unfold is_redir_op in Ea. simpl. unfold is_redir_op.
      destruct (redir_op a) as [[flags target]|] eqn:Er; [|done].
      intros [= <-]. by rewrite Er.
    + by rewrite handle_redirection_cons_plain by done.
  - change (dangling (a :: b :: l))
      with (if is_redir_op a then dangling l else dangling (b :: l)).
    change (last (a :: b :: l)) with (last (b :: l)).
    destruct (is_redir_op a) eqn:Ea.
    + unfold is_redir_op in Ea. simpl handle_redirection.
      destruct (redir_op a) as [[flags target]|]; [|done].
      destruct (negb (sys_open os b flags)); [done|].
      destruct (negb (sys_dup2 os (File b flags) target)); [done|].
      intros H. apply IH1 in H as (Hd & Hl & Ho).
      repeat split; [done| |done].
      destruct l; [done|]. exact Hl.
    + rewrite handle_redirection_cons_plain by done.
      destruct (handle_redirection os (b :: l) io) as [r io1|e] eqn:E; [done|].
      intros [= ->]. by apply IH2 in E.
Qed.

(** A scan that ends on an operator without a file name fails, whatever
    the system calls before it do. *)
Lemma dangling_fails args :
  ∀ io, dangling args = true → ∃ e, handle_redirection os args io = RedirErr e.
Proof.
  induction args as [|a|a b l IH1 IH2] using list_pair_ind; intros io.
  - done.
  - simpl. unfold is_redir_op.
    destruct (redir_op a) as [[flags target]|]; [eauto | done].
  - change (dangling (a :: b :: l))
      with (if is_redir_op a then dangling l else dangling (b :: l)).
    destruct (is_redir_op a) eqn:Ea.
    + unfold is_redir_op in Ea. simpl handle_redirection.
      destruct (redir_op a) as [[flags target]|]; [|done].
      intros Hd.
      destruct (negb (sys_open os b flags)); [eauto|].
      destruct (negb (sys_dup2 os (File b flags) target)); [eauto|].
      by apply IH1.
    + rewrite handle_redirection_cons_plain by done.
      intros Hd. destruct (IH2 io Hd) as [e He]. rewrite He. eauto.
Qed.

(** When every [open] and [dup2] succeeds, the only failure is the missing
    file name, and it happens exactly when the scan ends on an operator. *)
Lemma handle_redirection_all_open args :
  (∀ path flags, sys_open os path flags = true) →
  (∀ e target, sys_dup2 os e target = true) →
  ∀ io,
    if dangling args
    then ∃ op, handle_redirection os args io = RedirErr (NoFileSpecified op)
    else ∃ args' io', handle_redirection os args io = RedirOk args' io'.
Proof.
  intros Hopen Hdup.
  induction args as [|a|a b l IH1 IH2] using list_pair_ind; intros io.
  - simpl. eauto.
  - simpl. unfold is_redir_op.
    destruct (redir_op a) as [[flags target]|]; eauto.
  - change (dangling (a :: b :: l))
      with (if is_redir_op a then dangling l else dangling (b :: l)).
    destruct (is_redir_op a) eqn:Ea.
    + unfold is_redir_op in Ea. simpl handle_redirection.
      destruct (redir_op a) as [[flags target]|]; [|done].
      rewrite Hopen, Hdup. simpl. apply IH1.
    + rewrite handle_redirection_cons_plain by done.
      specialize (IH2 io). destruct (dangling (b :: l)).
      * destruct IH2 as [op ->]. eauto.
      * destruct IH2 as (r & io1 & ->). eauto.
Qed.

(** Whether the function fails does not depend on the streams it starts
    from. *)
Lemma handle_redirection_err_io args :
  ∀ io io' e,
    handle_redirection os args io = RedirErr e →
    handle_redirection os args io' = RedirErr e.
Proof.
  induction args as [|a|a b l IH1 IH2] using list_pair_ind; intros io io' e.
  - done.
  - simpl. destruct (redir_op a) as [[flags target]|]; done.
  - destruct (is_redir_op a) eqn:Ea.
    + unfold is_redir_op in Ea. simpl handle_redirection.
      destruct (redir_op a) as [[flags target]|]; [|done].
      destruct (negb (sys_open os b flags)); [done|].
      destruct (negb (sys_dup2 os (File b flags) target)); [done|].
      apply IH1.
    + rewrite !(handle_redirection_cons_plain a) by done.
      destruct (handle_redirection os (b :: l) io) as [r io1|e1] eqn:E; [done|].
      intros [= ->]. by rewrite (IH2 _ io' _ E).
Qed.

End RedirectionFacts.

(** *** The loop on the array *)

Lemma slot_app_r (pre : list (option string)) (rest : list (option string)) (k : nat) :
  slot (pre ++ rest) (length pre + k) = slot rest k.
Proof.
  unfold slot. rewrite lookup_app_r by lia.
  by replace (length pre + k - length pre)%nat with k by lia.
Qed.

Lemma slot_app_r_0 (pre : list (option string)) (rest : list (option string)) :
  slot (pre ++ rest) (length pre) = slot rest 0.
Proof. rewrite <- (slot_app_r pre rest 0). f_equal. lia. Qed.

Lemma insert_app_at {A} (pre rest : list A) (k : nat) (x : A) :
  <[(length pre + k)%nat := x]> (pre ++ rest) = pre ++ <[k := x]> rest.
Proof.
  rewrite insert_app_r_alt by lia.
  by replace (length pre + k - length pre)%nat with k by lia.
Qed.

Lemma insert_app_at_0 {A} (pre rest : list A) (x : A) :
  <[length pre := x]> (pre ++ rest) = pre ++ <[0%nat := x]> rest.
Proof. rewrite <- (insert_app_at pre rest 0 x). f_equal. lia. Qed.

Lemma insert_app_at_1 {A} (pre rest : list A) (x : A) :
  <[S (length pre) := x]> (pre ++ rest) = pre ++ <[1%nat := x]> rest.
Proof. rewrite <- (insert_app_at pre rest 1 x). f_equal. lia. Qed.

(** The shifting loop removes the two slots at [j] and leaves two more
    null pointers behind the segment. *)
Lemma shift_args_spec (post : list string) :
  ∀ (pre : list (option string)) (a b : option string)
    (junk : list (option string)) (fuel : nat),
    (length post < fuel)%nat →
    shift_args fuel (pre ++ a :: b :: (Some <$> post) ++ None :: junk) (length pre)
      = pre ++ (Some <$> post) ++ None :: None :: None :: junk.
Proof.
  induction post as [|p post IH]; intros pre a b junk fuel Hfuel.
  - destruct fuel as [|fuel]; [lia|]. cbn [shift_args].
    rewrite (slot_app_r pre _ 2). cbn.
    by rewrite insert_app_at_0, insert_app_at_1.
  - destruct fuel as [|fuel]; [simpl in Hfuel; lia|].
    cbn [shift_args]. rewrite (slot_app_r pre _ 2). cbn.
    rewrite insert_app_at_0. cbn.
    specialize (IH (pre ++ [Some p]) b (Some p) junk fuel).
    rewrite length_app in IH. simpl in IH.
    replace (length pre + 1)%nat with (S (length pre)) in IH by lia.
    rewrite <- !app_assoc in IH. simpl in IH.
    rewrite IH by (simpl in Hfuel; lia). done.
Qed.

Section RedirectionArray.
Context {W : Type} (os : OS W).

Lemma handle_redirection_length args :
  ∀ io args' io',
    handle_redirection os args io = RedirOk args' io' →
    (length args' ≤ length args)%nat.
Proof.
  intros io args' io' H.
  apply handle_redirection_sublist in H as [Hs _].
  by apply sublist_length.
Qed.

(** The loop on the array does what [handle_redirection] does on the list
    of tokens from index [i] on: same return value and message, same
    streams, and on return 0 the tokens that are left, closed by a null
    pointer. *)
Lemma handle_redirection_at_refines (fuel : nat) :
  ∀ (l : list string) (pre junk : list (option string)) (io : stdio),
    (length l < fuel)%nat →
    match handle_redirection os l io with
    | RedirOk r io1 =>
      handle_redirection_at os fuel (pre ++ (Some <$> l) ++ None :: junk)
                            (length pre) io
        = (None,
           pre ++ (Some <$> r) ++ replicate (S (length l - length r)) None ++ junk,
           io1)
    | RedirErr e =>
      (handle_redirection_at os fuel (pre ++ (Some <$> l) ++ None :: junk)
                             (length pre) io).1.1 = Some e
    end.
Proof.
  induction fuel as [|fuel IH]; intros l pre junk io Hfuel; [lia|].
  destruct l as [|a l].
  - cbn [handle_redirection_at]. rewrite slot_app_r_0. done.
  - assert (Hs0 : slot (pre ++ (Some <$> a :: l) ++ None :: junk) (length pre)
                  = Some a) by (by rewrite slot_app_r_0).
    cbn [handle_redirection_at handle_redirection]. rewrite Hs0.
    destruct (redir_op a) as [[flags target]|] eqn:Ea.
    + destruct l as [|b post].
      * assert (Hs1 : slot (pre ++ (Some <$> [a]) ++ None :: junk) (length pre + 1)
                      = None) by (by rewrite slot_app_r).
        by rewrite Hs1.
      * assert (Hs1 : slot (pre ++ (Some <$> a :: b :: post) ++ None :: junk)
                           (length pre + 1) = Some b) by (by rewrite slot_app_r).
        rewrite Hs1.
        destruct (negb (sys_open os b flags)); [done|].
        destruct (negb (sys_dup2 os (File b flags) target)); [done|].
        change (pre ++ (Some <$> a :: b :: post) ++ None :: junk)
          with (pre ++ Some a :: Some b :: (Some <$> post) ++ None :: junk).
        rewrite (shift_args_spec post pre (Some a) (Some b) junk).
        2:{ rewrite length_app. simpl. rewrite length_app, length_fmap. simpl. lia. }
        specialize (IH post pre (None :: None :: junk)
                       (rebind target (File b flags) io)).
        simpl in Hfuel. specialize (IH ltac:(lia)).
        destruct (handle_redirection os post _) as [r io1|e] eqn:E; [|done].
        rewrite IH. apply handle_redirection_length in E.
        do 2 f_equal. f_equal. f_equal.
        replace (S (length (a :: b :: post) - length r))
          with (S (length post - length r) + 2)%nat by (simpl; lia).
        rewrite replicate_add. by rewrite <- app_assoc.
    + specialize (IH l (pre ++ [Some a]) junk io).
      simpl in Hfuel. specialize (IH ltac:(lia)).
      rewrite length_app in IH. simpl in IH.
      replace (length pre + 1)%nat with (S (length pre)) in IH by lia.
      rewrite <- !app_assoc in IH. simpl in IH.
      change (pre ++ (Some <$> a :: l) ++ None :: junk)
        with (pre ++ Some a :: (Some <$> l) ++ None :: junk).
      destruct (handle_redirection os l io) as [r io1|e] eqn:E; [|done].
      rewrite IH, <- app_assoc. reflexivity.
Qed.

(** C's [handle_redirection] on a segment [l] that sits at the start of an
    array and is closed by a null pointer. *)
Lemma handle_redirection_array_refines (l : list string)
      (junk : list (option string)) (io : stdio) :
  match handle_redirection os l io with
  | RedirOk r io1 =>
    handle_redirection_array os ((Some <$> l) ++ None :: junk) io
      = (None,
         (Some <$> r) ++ replicate (S (length l - length r)) None ++ junk,
         io1)
  | RedirErr e =>
    (handle_redirection_array os ((Some <$> l) ++ None :: junk) io).1.1 = Some e
  end.
Proof.
  unfold handle_redirection_array.
  apply (handle_redirection_at_refines _ l [] junk io).
  rewrite length_app, length_fmap. simpl. lia.
Qed.

End RedirectionArray.

(** C8.  A segment without redirection operators comes back as it is, same
    tokens in the same order, and no stream is rebound; in general what
    comes back is a subsequence of the segment, so the tokens that stay
    keep their order, and none of them is an operator.  The first part is
    also stated for the loop on the array, which it leaves untouched. *)
Theorem handle_redirection_keeps_order {W} (os : OS W)
        (args : list string) (io : stdio) :
  (forallb (fun tok => negb (is_redir_op tok)) args = true →
   handle_redirection os args io = RedirOk args io) ∧
  (∀ args' io',
     handle_redirection os args io = RedirOk args' io' →
     args' `sublist_of` args ∧
     forallb (fun tok => negb (is_redir_op tok)) args' = true) ∧
  (∀ junk,
     forallb (fun tok => negb (is_redir_op tok)) args = true →
     handle_redirection_array os ((Some <$> args) ++ None :: junk) io
       = (None, (Some <$> args) ++ None :: junk, io)).
Proof.
  split; [|split].
  - apply handle_redirection_plain.
  - apply handle_redirection_sublist.
  - intros junk Hplain.
    pose proof (handle_redirection_array_refines os args junk io) as H.
    rewrite (handle_redirection_plain os args io Hplain) in H.
    by rewrite Nat.sub_diag in H.
Qed.

Lemma handle_redirection_keeps_order_witness :
  handle_redirection demo_os ["ls"; "-l"; "dir"] io_inherited
    = RedirOk ["ls"; "-l"; "dir"] io_inherited ∧
  ["sort"; "-r"] `sublist_of` ["sort"; ">"; "out"; "-r"; "<"; "in"].
Proof.
  split.
  - apply (proj1 (handle_redirection_keeps_order
                    demo_os ["ls"; "-l"; "dir"] io_inherited)).
    reflexivity.
  - apply (proj1 (proj2 (handle_redirection_keeps_order
                    demo_os ["sort"; ">"; "out"; "-r"; "<"; "in"] io_inherited))
                 ["sort"; "-r"] (Stdio (File "in" RdOnly) (File "out" WrTrunc))).
    reflexivity.
Defined.

(** C7, as amended.  [handle_redirection] reports a missing file name only
    for a segment whose last token is an operator, but not for every such
    segment: an operator takes the token after it as its file name even when
    that token is an operator too, so the report comes exactly when the
    segment ends in an odd number of operator tokens (and no [open] or
    [dup2] failed before).  Whenever the function fails, the child leaves
    with [EXIT_FAILURE] before [execvp], so the command is not run. *)
Theorem handle_redirection_missing_target {W} (os : OS W)
        (args : list string) (io : stdio) :
  (∀ op, handle_redirection os args io = RedirErr (NoFileSpecified op) →
         last args = Some op ∧ is_redir_op op = true ∧
         Nat.odd (trailing_ops args) = true) ∧
  (Nat.odd (trailing_ops args) = true →
   ∃ e, handle_redirection os args io = RedirErr e) ∧
  ((∀ path flags, sys_open os path flags = true) →
   (∀ e target, sys_dup2 os e target = true) →
   ((∃ op, handle_redirection os args io = RedirErr (NoFileSpecified op))
      ↔ Nat.odd (trailing_ops args) = true) ∧
   (∀ e, handle_redirection os args io = RedirErr e →
         ∃ op, e = NoFileSpecified op)) ∧
  (∀ e, handle_redirection os args io = RedirErr e →
        child_single os args = ChildExit EXIT_FAILURE (RedirectionFailed e) ∧
        child_runs os (child_single os args) = None ∧
        ∀ i n, child_runs os (child_pipeline os i n args) = None).
Proof.
  split; [|split; [|split]].
  - intros op H. apply handle_redirection_no_file in H as (Hd & Hl & Ho).
    by rewrite <- dangling_odd.
  - rewrite <- dangling_odd. apply dangling_fails.
  - intros Hopen Hdup.
    pose proof (handle_redirection_all_open os args Hopen Hdup io) as H.
    rewrite <- dangling_odd. destruct (dangling args).
    + destruct H as [op Hop]. split.
      * split; eauto.
      * intros e He. rewrite Hop in He. injection He as <-. eauto.
    + destruct H as (r & io1 & Hok). split.
      * split; [|done]. intros [op Hop]. by rewrite Hok in Hop.
      * intros e He. by rewrite Hok in He.
  - intros e He.
    assert (Hs : child_single os args = ChildExit EXIT_FAILURE (RedirectionFailed e)).
    { unfold child_single.
      by rewrite (handle_redirection_err_io os args io io_inherited e He). }
    split; [done|]. split; [by rewrite Hs|].
    intros i n. unfold child_pipeline.
    destruct (negb (i =? 0)%nat && negb (sys_dup2 os (PipeRead (i - 1)) STDIN_FILENO));
      [done|].
    destruct (negb (i =? n - 1)%nat && negb (sys_dup2 os (PipeWrite i) STDOUT_FILENO));
      [done|].
    by rewrite (handle_redirection_err_io os args io _ e He).
Qed.

Lemma handle_redirection_missing_target_witness :
  (last ["sort"; "<"] = Some "<" ∧ is_redir_op "<" = true ∧
   Nat.odd (trailing_ops ["sort"; "<"]) = true) ∧
  (∃ e, handle_redirection demo_os ["ls"; ">"; ">>"; ">"] io_inherited = RedirErr e) ∧
  ((∃ op, handle_redirection demo_os ["ls"; ">"] io_inherited
            = RedirErr (NoFileSpecified op))
     ↔ Nat.odd (trailing_ops ["ls"; ">"]) = true) ∧
  child_runs demo_os (child_single demo_os ["sort"; "<"]) = None.
Proof.
  split; [|split; [|split]].
  - apply (proj1 (handle_redirection_missing_target
                    demo_os ["sort"; "<"] io_inherited) "<").
    reflexivity.
  - apply (proj1 (proj2 (handle_redirection_missing_target
                           demo_os ["ls"; ">"; ">>"; ">"] io_inherited))).
    reflexivity.
  - apply (proj1 (proj2 (proj2 (handle_redirection_missing_target
                                  demo_os ["ls"; ">"] io_inherited)))).
    + intros path flags. reflexivity.
    + intros e target. reflexivity.
  - apply (proj2 (proj2 (proj2 (handle_redirection_missing_target
                                  demo_os ["sort"; "<"] io_inherited)))
                 (NoFileSpecified "<")).
    reflexivity.
Defined.

(** C7, counterexample.  The segment [cat < >] ends with an operator, yet
    the function returns 0: the last token is taken as the name of the file
    to read from, and [cat] is run.  On no system is a missing file name
    reported for this segment. *)
Lemma trailing_operator_taken_as_file :
  last ["cat"; "<"; ">"] = Some ">" ∧
  is_redir_op ">" = true ∧
  handle_redirection demo_os ["cat"; "<"; ">"] io_inherited
    = RedirOk ["cat"] (Stdio (File ">" RdOnly) Inherited) ∧
  redir_ret (handle_redirection demo_os ["cat"; "<"; ">"] io_inherited) = 0 ∧
  child_runs demo_os (child_single demo_os ["cat"; "<"; ">"]) = Some ["cat"] ∧
  (∀ W (os : OS W) (io : stdio) (op : string),
     handle_redirection os ["cat"; "<"; ">"] io ≠ RedirErr (NoFileSpecified op)).
Proof.
  do 5 (split; [reflexivity|]).
  intros W os io op H.
  by apply handle_redirection_no_file in H as [Hd _].
Qed.

(** ** Running commands *)

Lemma bindM_step {W A B} (m : M W A) (f : A → M W B) w a w1 t1 :
  m w = Returned a w1 t1 →
  bindM m f w =
    match f a w1 with
    | Returned b w2 t2 => Returned b w2 (t1 ++ t2)
    | Exited s w2 t2 => Exited s w2 (t1 ++ t2)
    end.
Proof. unfold bindM. by intros ->. Qed.

Lemma children_app (t1 t2 : list event) :
  children (t1 ++ t2) = children t1 ++ children t2.
Proof. unfold children. apply omap_app. Qed.

Lemma ensures_bind {W A B} (m : M W A) (f : A → M W B) (w : W)
      (Q1 : A → Prop) (Q2 : B → Prop) (E : Z → Prop) :
  ensures (m w) Q1 E →
  (∀ a w1, Q1 a → ensures (f a w1) Q2 E) →
  ensures (bindM m f w) Q2 E.
Proof.
  unfold bindM. intros Hm Hf.
  destruct (m w) as [a w1 t1|s w1 t1]; [|done].
  specialize (Hf a w1 Hm). by destruct (f a w1).
Qed.

Lemma ensures_weaken {W A} (o : outcome W A) (Q Q' : A → Prop) (E E' : Z → Prop) :
  ensures o Q E → (∀ a, Q a → Q' a) → (∀ s, E s → E' s) → ensures o Q' E'.
Proof. destruct o; simpl; eauto. Qed.

Lemma ensures_ret {W A} (a : A) (w : W) (Q : A → Prop) (E : Z → Prop) :
  Q a → ensures (retM a w) Q E.
Proof. done. Qed.

Lemma ensures_emit {W} (e : event) (w : W) (E : Z → Prop) :
  ensures (emit e w) (fun _ => True) E.
Proof. done. Qed.

Lemma ensures_call {W A} (f : W → A * W) (w : W) (E : Z → Prop) :
  ensures (call f w) (fun _ => True) E.
Proof. unfold call. by destruct (f w). Qed.

Lemma ensures_exit {W A} (status : Z) (w : W) (Q : A → Prop) (E : Z → Prop) :
  E status → ensures (@exit W A status w) Q E.
Proof. done. Qed.

Ltac unfold_monad :=
  unfold mbind, M_bind, bindM, retM, emit, exit, call in *.

Section ExecutionFacts.
Context {W : Type} (os : OS W).

Lemma find_op_length args seg op rest :
  find_op args = (seg, Some (op, rest)) → (length rest < length args)%nat.
Proof.
  revert seg. induction args as [|tok l IH]; intros seg; simpl; [done|].
  destruct (negb (streq tok "&&") && negb (streq tok "||")).
  - destruct (find_op l) as [seg' o] eqn:E. intros [= <- ->].
    specialize (IH _ eq_refl). lia.
  - intros [= <- <- <-]. lia.
Qed.

(** The loop is done after at most one pass per token: more fuel than
    tokens changes nothing. *)
Lemma sh_execute_logical_loop_fuel fuel :
  ∀ args ret w,
    (length args ≤ fuel)%nat →
    sh_execute_logical_loop os fuel args ret w
      = sh_execute_logical_loop os (length args) args ret w.
Proof.
  induction fuel as [fuel IH] using lt_wf_ind.
  intros args ret w Hlen.
  destruct args as [|tok l]; [by destruct fuel|].
  destruct fuel as [|fuel]; [simpl in Hlen; lia|].
  cbn [length sh_execute_logical_loop].
  destruct (find_op (tok :: l)) as [seg [[op rest]|]] eqn:E; [|done].
  apply find_op_length in E. simpl in E, Hlen.
  assert (Hr : ∀ r w1, sh_execute_logical_loop os fuel rest r w1
                       = sh_execute_logical_loop os (length l) rest r w1).
  { intros r w1. rewrite (IH fuel) by lia.
    symmetry. apply (IH (length l)); lia. }
  unfold mbind, M_bind, bindM.
  destruct (sh_execute_simple os seg w) as [r w1 t1|]; [|done].
  destruct (streq op "&&"); [destruct (negb (r =? 0)); [done|by rewrite Hr]|].
  destruct (streq op "||"); [destruct (r =? 0); [done|by rewrite Hr]|].
  by rewrite Hr.
Qed.

Lemma count_commands_split args :
  count_commands args = length (split_pipes args).
Proof.
  unfold count_commands.
  induction args as [|tok rest IH]; [done|].
  simpl split_pipes. destruct (streq tok "|") eqn:E.
  - rewrite filter_cons_True by done. simpl. simpl in IH. by rewrite IH.
  - rewrite filter_cons_False by (by rewrite E).
    destruct (split_pipes rest); simpl in *; lia.
Qed.

Lemma split_pipes_nonempty args : split_pipes args ≠ [].
Proof.
  destruct args as [|a l]; [done|]. simpl.
  destruct (streq a "|"); [done|]. by destruct (split_pipes l).
Qed.

Lemma split_pipes_one args : length (split_pipes args) = 1%nat → split_pipes args = [args].
Proof.
  induction args as [|a l IH]; [done|]. simpl.
  pose proof (split_pipes_nonempty l) as Hne.
  destruct (streq a "|").
  - destruct (split_pipes l); [done|]. simpl. lia.
  - destruct (split_pipes l) as [|c cs]; [done|].
    destruct cs as [|c' cs]; [|simpl; lia].
    intros _. specialize (IH eq_refl). by injection IH as ->.
Qed.

Lemma child_pipeline_single args :
  child_pipeline os 0 1 args = child_single os args.
Proof. done. Qed.

Lemma create_pipes_ok :
  pipes_succeed os →
  ∀ n w, ∃ w', create_pipes os n w = Returned tt w' [].
Proof.
  intros Hp n. induction n as [|n IH]; intros w; simpl.
  - by exists w.
  - destruct (Hp w) as [w1 Hw]. destruct (IH w1) as [w2 Hc].
    exists w2. unfold_monad. by rewrite Hw, Hc.
Qed.

Lemma fork_commands_ok :
  forks_succeed os →
  ∀ cmds i n w, ∃ w' t,
    fork_commands os i n cmds w = Returned tt w' t ∧
    children t = imap (fun k cmd => child_pipeline os (i + k) n cmd) cmds.
Proof.
  intros Hf cmds. induction cmds as [|cmd cmds IH]; intros i n w; simpl.
  - by exists w, [].
  - destruct (Hf w) as (pid & w1 & Hw).
    destruct (IH (S i) n w1) as (w2 & t & Hc & Ht).
    exists w2, (Forked pid (child_pipeline os i n cmd) :: t).
    unfold_monad. rewrite Hw, Hc. split; [done|].
    simpl. rewrite Ht, Nat.add_0_r. f_equal.
    apply imap_ext. intros k cmd' _. simpl. f_equal. lia.
Qed.

Lemma wait_all_events n (w : W) :
  wait_all n w = Returned tt w (replicate n (Waited None)).
Proof.
  revert w. induction n as [|n IH]; intros w; simpl; [done|].
  unfold_monad. by rewrite IH.
Qed.

Lemma children_replicate_waited n :
  children (replicate n (Waited None)) = [].
Proof. induction n; [done|]. done. Qed.

(** No segment is examined before the children are created: one child per
    segment, empty segments included, and the value 0. *)
Lemma sh_execute_simple_spawns tok rest w :
  forks_succeed os → pipes_succeed os →
  let args := strip_background (tok :: rest) in
  let cmds := split_pipes args in
  ∃ w' t,
    sh_execute_simple os (tok :: rest) w = Returned 0 w' t ∧
    children t =
      imap (fun i cmd => child_pipeline os i (length cmds) cmd) cmds.
Proof.
  intros Hf Hp args cmds.
  unfold sh_execute_simple. fold args.
  rewrite (count_commands_split args). fold cmds.
  destruct (length cmds =? 1)%nat eqn:En.
  - apply Nat.eqb_eq in En.
    destruct (Hf w) as (pid & w1 & Hw).
    assert (Hc : cmds = [args]).
    { by apply split_pipes_one. }
    rewrite Hc. simpl.
    destruct (is_background (tok :: rest)).
    + exists w1, [Forked pid (child_single os args); BackgroundPid pid].
      unfold_monad. by rewrite Hw.
    + exists w1, [Forked pid (child_single os args); Waited (Some pid)].
      unfold_monad. by rewrite Hw.
  - destruct (create_pipes_ok Hp (length cmds - 1) w) as (w1 & Hc).
    destruct (fork_commands_ok Hf cmds 0 (length cmds) w1) as (w2 & t & Hk & Ht).
    destruct (is_background (tok :: rest)).
    + exists w2, (t ++ [BackgroundPipeline]).
      unfold_monad. rewrite Hc, Hk. simpl. split; [done|].
      rewrite children_app, Ht. simpl. by rewrite app_nil_r.
    + exists w2, (t ++ replicate (length cmds) (Waited None)).
      unfold_monad. rewrite Hc, Hk, wait_all_events. simpl.
      rewrite app_nil_r. split; [done|].
      by rewrite children_app, Ht, children_replicate_waited, app_nil_r.
Qed.

Lemma create_pipes_ensures n (w : W) :
  ensures (create_pipes os n w) (fun _ => True) fails_only.
Proof.
  revert w. induction n as [|n IH]; intros w; simpl; [done|].
  apply (ensures_bind _ _ _ (fun _ => True)); [apply ensures_call|].
  intros [] w1 _; [apply IH|].
  apply (ensures_bind _ _ _ (fun _ => True)); [apply ensures_emit|].
  intros _ w2 _. by apply ensures_exit.
Qed.

Lemma fork_commands_ensures cmds :
  ∀ i n (w : W), ensures (fork_commands os i n cmds w) (fun _ => True) fails_only.
Proof.
  induction cmds as [|cmd cmds IH]; intros i n w; simpl; [done|].
  apply (ensures_bind _ _ _ (fun _ => True)); [apply ensures_call|].
  intros [pid|] w1 _.
  - apply (ensures_bind _ _ _ (fun _ => True)); [apply ensures_emit|].
    intros _ w2 _. apply IH.
  - apply (ensures_bind _ _ _ (fun _ => True)); [apply ensures_emit|].
    intros _ w2 _. by apply ensures_exit.
Qed.

Lemma wait_all_ensures n (w : W) :
  ensures (wait_all n w) (fun _ => True) fails_only.
Proof. by rewrite wait_all_events. Qed.

(** [sh_execute_simple] returns 0 whenever it returns, and ends the shell
    only with [EXIT_FAILURE]. *)
Lemma sh_execute_simple_ensures args (w : W) :
  ensures (sh_execute_simple os args w) (fun ret => ret = 0) fails_only.
Proof.
  unfold sh_execute_simple. destruct args as [|tok rest]; [done|].
  destruct (count_commands _ =? 1)%nat.
  - apply (ensures_bind _ _ _ (fun _ => True)); [apply ensures_call|].
    intros [pid|] w1 _.
    + apply (ensures_bind _ _ _ (fun _ => True)); [apply ensures_emit|].
      intros _ w2 _.
      apply (ensures_bind _ _ _ (fun _ => True)); [by destruct (is_background _)|].
      done.
    + apply (ensures_bind _ _ _ (fun _ => True)); [apply ensures_emit|]. done.
  - apply (ensures_bind _ _ _ (fun _ => True)); [apply create_pipes_ensures|].
    intros _ w1 _.
    apply (ensures_bind _ _ _ (fun _ => True)); [apply fork_commands_ensures|].
    intros _ w2 _.
    apply (ensures_bind _ _ _ (fun _ => True)).
    + destruct (is_background _); [done | apply wait_all_ensures].
    + done.
Qed.

Lemma sh_execute_logical_loop_ensures fuel :
  ∀ args ret (w : W),
    ensures (sh_execute_logical_loop os fuel args ret w)
            (fun a => a = 0 ∨ a = ret) fails_only.
Proof.
  induction fuel as [|fuel IH]; intros args ret w; simpl; [by right|].
  destruct args as [|tok rest]; [by right|].
  destruct (find_op (tok :: rest)) as [seg op].
  apply (ensures_bind _ _ _ (fun r => r = 0)); [apply sh_execute_simple_ensures|].
  intros r w1 ->.
  destruct op as [[op rest']|]; [|by left].
  assert (Hnext : ensures (sh_execute_logical_loop os fuel rest' 0 w1)
                          (fun a => a = 0 ∨ a = ret) fails_only).
  { eapply ensures_weaken; [apply IH | | done]. intros a [->| ->]; by left. }
  destruct (streq op "&&"); [exact Hnext|].
  destruct (streq op "||"); [by left | exact Hnext].
Qed.

Lemma sh_execute_logical_ensures args (w : W) :
  ensures (sh_execute_logical os args w) (fun ret => ret = 0) fails_only.
Proof.
  eapply ensures_weaken; [apply sh_execute_logical_loop_ensures | | done].
  by intros a [->| ->].
Qed.

(** The child of an empty segment starts no program. *)
Lemma child_pipeline_empty i n :
  child_runs os (child_pipeline os i n []) = None.
Proof.
  unfold child_pipeline.
  destruct (negb (i =? 0)%nat && negb (sys_dup2 os (PipeRead (i - 1)) STDIN_FILENO));
    [done|].
  destruct (negb (i =? n - 1)%nat && negb (sys_dup2 os (PipeWrite i) STDOUT_FILENO));
    done.
Qed.

End ExecutionFacts.

Lemma demo_forks_succeed : forks_succeed demo_os.
Proof. intros w. by eexists _, _. Qed.

Lemma demo_pipes_succeed : pipes_succeed demo_os.
Proof. intros w. by eexists _. Qed.

(** C1, at the failing input.  The single command [false] runs and ends with
    status 1, and so does the last command of [true | false]; in both cases
    the value [sh_execute_simple] returns is 0.  On every system and for
    every token sequence the function returns 0 if it returns at all. *)
Theorem sh_execute_simple_status_of_false :
  let single := sh_execute_simple demo_os ["false"] 0%nat in
  let piped := sh_execute_simple demo_os ["true"; "|"; "false"] 0%nat in
  (children (events single) = [ChildExec ["false"] io_inherited] ∧
   child_status demo_os <$> last (children (events single)) = Some 1 ∧
   returned single = Some 0) ∧
  (child_runs demo_os <$> children (events piped)
     = [Some ["true"]; Some ["false"]] ∧
   child_status demo_os <$> last (children (events piped)) = Some 1 ∧
   returned piped = Some 0) ∧
  (∀ W (os : OS W) (args : list string) (w : W),
     ensures (sh_execute_simple os args w) (fun ret => ret = 0) fails_only).
Proof.
  split; [by vm_compute|]. split; [by vm_compute|].
  intros W os args w. apply sh_execute_simple_ensures.
Qed.

(** C2, at the failing input.  In [false && echo X] the first command ends
    with status 1, yet [echo X] is run and the chain returns 0; in
    [false || echo X] the second command is not run.  On every system and
    for every token sequence the chain returns 0 if it returns at all. *)
Theorem sh_execute_logical_false_and_echo :
  let conj := sh_execute_logical demo_os ["false"; "&&"; "echo"; "X"] 0%nat in
  let disj := sh_execute_logical demo_os ["false"; "||"; "echo"; "X"] 0%nat in
  (child_runs demo_os <$> children (events conj)
     = [Some ["false"]; Some ["echo"; "X"]] ∧
   child_status demo_os <$> children (events conj) = [1; 0] ∧
   returned conj = Some 0) ∧
  (child_runs demo_os <$> children (events disj) = [Some ["false"]] ∧
   child_status demo_os <$> children (events disj) = [1] ∧
   returned disj = Some 0) ∧
  (∀ W (os : OS W) (args : list string) (w : W),
     ensures (sh_execute_logical os args w) (fun ret => ret = 0) fails_only).
Proof.
  split; [by vm_compute|]. split; [by vm_compute|].
  intros W os args w. apply sh_execute_logical_ensures.
Qed.

(** C6, as amended.  [sh_execute_simple] does not look at the segments
    before it creates the children, and no parse error is raised.  When
    [pipe] and [fork] succeed, every segment between the pipe tokens gets a
    child, in order, whether it is empty or not, and the function returns to
    its caller; the child of an empty segment starts no program, the others
    go on as usual. *)
Theorem sh_execute_simple_no_validation {W} (os : OS W)
        (tok : string) (rest : list string) (w : W) :
  forks_succeed os → pipes_succeed os →
  let cmds := split_pipes (strip_background (tok :: rest)) in
  (∃ ret w' t,
     sh_execute_simple os (tok :: rest) w = Returned ret w' t ∧
     children t = imap (fun i cmd => child_pipeline os i (length cmds) cmd) cmds) ∧
  (∀ i, child_runs os (child_pipeline os i (length cmds) []) = None).
Proof.
  intros Hf Hp cmds. split.
  - destruct (sh_execute_simple_spawns os tok rest w Hf Hp) as (w' & t & H).
    by exists 0, w', t.
  - intros i. apply child_pipeline_empty.
Qed.

Lemma sh_execute_simple_no_validation_witness :
  (∃ ret w' t,
     sh_execute_simple demo_os ["ls"; "|"; "|"; "cat"] 0%nat = Returned ret w' t ∧
     children t =
       [ChildExec ["ls"] (Stdio Inherited (PipeWrite 0));
        ChildExec [] (Stdio (PipeRead 0) (PipeWrite 1));
        ChildExec ["cat"] (Stdio (PipeRead 1) Inherited)]) ∧
  (∀ i, child_runs demo_os (child_pipeline demo_os i 3 []) = None).
Proof.
  exact (sh_execute_simple_no_validation demo_os "ls" ["|"; "|"; "cat"] 0%nat
           demo_forks_succeed demo_pipes_succeed).
Defined.

(** C6, counterexample.  With a leading pipe, a trailing pipe or two pipes
    in a row the function reports no failure and returns like for any other
    pipeline, and [ls] is run. *)
Lemma empty_segment_not_rejected :
  let leading := sh_execute_simple demo_os ["|"; "ls"] 0%nat in
  let trailing := sh_execute_simple demo_os ["ls"; "|"] 0%nat in
  let doubled := sh_execute_simple demo_os ["ls"; "|"; "|"; "cat"] 0%nat in
  (returned leading = Some 0 ∧
   child_runs demo_os <$> children (events leading) = [None; Some ["ls"]]) ∧
  (returned trailing = Some 0 ∧
   child_runs demo_os <$> children (events trailing) = [Some ["ls"]; None]) ∧
  (returned doubled = Some 0 ∧
   child_runs demo_os <$> children (events doubled)
     = [Some ["ls"]; None; Some ["cat"]]).
Proof. vm_compute. repeat split. Qed.

(** ** The main loop *)




Section LoopFacts.
Context {W : Type} (os : OS W).

Lemma record_and_execute_eq line h :
  record_and_execute os line h = recorded_and_run os line h.
Proof. done. Qed.


(** A single command never ends the shell. *)
Lemma sh_execute_logical_single (tok : string) (w : W) :
  streq tok "&&" = false → streq tok "||" = false →
  streq tok "&" = false → streq tok "|" = false →
  ∃ w' t, sh_execute_logical os [tok] w = Returned 0 w' t.
Proof.
  intros Ha Ho Hb Hp.
  unfold sh_execute_logical. simpl. rewrite Ha, Ho. simpl.
  unfold sh_execute_simple, is_background, strip_background, is_background.
  simpl. rewrite Hb. unfold count_commands.
  rewrite filter_cons_False by (by rewrite Hp). simpl.
  unfold_monad. destruct (sys_fork os w) as [[pid|] w1]; eauto.
Qed.

Lemma malloc_ensures n (w : W) :
  ensures (malloc os n w) (fun _ => True) (fun _ => False).
Proof.
  unfold malloc. apply (ensures_bind _ _ _ (fun _ => True)); [apply ensures_call|]. done.
Qed.

Lemma append_chars_ensures cs :
  ∀ buffer pos (w : W),
    ensures (append_chars cs buffer pos w) (fun _ => True) (fun _ => False).
Proof.
  induction cs as [|c cs IH]; intros buffer pos w; simpl; [done|].
  apply (ensures_bind _ _ _ (fun _ => True)); [apply ensures_emit|].
  intros _ w1 _. apply IH.
Qed.

Lemma autocomplete_ensures buffer pos (w : W) :
  ensures (autocomplete os buffer pos w) (fun _ => True) (fun _ => False).
Proof.
  unfold autocomplete.
  apply (ensures_bind _ _ _ (fun _ => True)); [apply ensures_call|].
  intros [entries|] w1 _; [|done].
  destruct (find_matches _ entries) as [|name [|name' names]]; [done| |done].
  apply append_chars_ensures.
Qed.

Lemma sh_read_line_loop_ensures input :
  ∀ buffer pos bufsize (w : W),
    ensures (sh_read_line_loop os input buffer pos bufsize w)
            (fun _ => True) (fun _ => False).
Proof.
  induction input as [|c input IH]; intros buffer pos bufsize w; simpl; [done|].
  destruct (Ascii.eqb c "013" || Ascii.eqb c "010"); [done|].
  apply (ensures_bind _ _ _ (fun _ => True)).
  - destruct (Ascii.eqb c "127" || Ascii.eqb c "008").
    + by destruct (0 <? pos)%nat.
    + destruct (Ascii.eqb c "009"); [apply autocomplete_ensures | done].
  - intros [buffer' pos'] w1 _.
    destruct (bufsize - 1 <=? pos')%nat; [|apply IH].
    apply (ensures_bind _ _ _ (fun _ => True)).
    + eapply ensures_weaken; [apply malloc_ensures | done | done].
    + intros more w2 _. apply IH.
Qed.

(** [sh_read_line] always returns: it has no way to report the end of the
    input other than through the buffer. *)
Lemma sh_read_line_ensures input (w : W) :
  ensures (sh_read_line os input w) (fun _ => True) (fun _ => False).
Proof.
  unfold sh_read_line.
  apply (ensures_bind _ _ _ (fun _ => True)); [apply ensures_emit|].
  intros _ w1 _.
  apply (ensures_bind _ _ _ (fun _ => True)); [apply malloc_ensures|].
  intros buffer w2 _.
  apply (ensures_bind _ _ _ (fun _ => True)); [apply sh_read_line_loop_ensures|].
  intros r w3 _.
  apply (ensures_bind _ _ _ (fun _ => True)); [apply ensures_emit|]. done.
Qed.

Lemma record_and_execute_ensures line h (w : W) :
  ensures (record_and_execute os line h w) (fun v => v.1 = 0) fails_only.
Proof.
  unfold record_and_execute.
  apply (ensures_bind _ _ _ (fun r => r = 0)); [apply sh_execute_logical_ensures|].
  by intros r w1 ->.
Qed.

Lemma process_line_ensures line status h (w : W) :
  ensures (process_line os line status h w)
          (fun v => v.1 = 0 ∨ v.1 = status) fails_only.
Proof.
  assert (Hrec : ∀ l w1, ensures (record_and_execute os l h w1)
                                 (fun v => v.1 = 0 ∨ v.1 = status) fails_only).
  { intros l w1. eapply ensures_weaken;
      [apply record_and_execute_ensures | by left | done]. }
  unfold process_line. destruct (is_history_invocation line); [|apply Hrec].
  destruct (get_history_command _ h) as [entry|].
  - apply (ensures_bind _ _ _ (fun _ => True)); [apply ensures_emit|].
    intros _ w1 _. apply Hrec.
  - apply (ensures_bind _ _ _ (fun _ => True)); [apply ensures_emit|].
    intros _ w1 _. by right.
Qed.

Lemma sh_loop_body_ensures status h input (w : W) :
  ensures (sh_loop_body os status h input w)
          (fun v => v.1.1 = 0 ∨ v.1.1 = status) fails_only.
Proof.
  unfold sh_loop_body.
  apply (ensures_bind _ _ _ (fun _ => True)); [apply ensures_emit|].
  intros _ w1 _.
  apply (ensures_bind _ _ _ (fun _ => True)).
  { eapply ensures_weaken; [apply sh_read_line_ensures | done | done]. }
  intros [buffer input'] w2 _.
  apply (ensures_bind _ _ _ (fun v => v.1 = 0 ∨ v.1 = status));
    [apply process_line_ensures|].
  by intros [status' h'] w3 Hst.
Qed.

(** Once [status] is not negative the loop is never left: a pass stores the
    0 that [sh_execute_logical] returned or keeps the value.  The shell can
    then end only through [exit(EXIT_FAILURE)]. *)
Lemma sh_loop_ensures fuel :
  ∀ status h input (w : W),
    0 <= status →
    ensures (sh_loop os fuel status h input w) (fun r => r = None) fails_only.
Proof.
  induction fuel as [|fuel IH]; intros status h input w Hst; simpl; [done|].
  apply (ensures_bind _ _ _ (fun v => v.1.1 = 0 ∨ v.1.1 = status));
    [apply sh_loop_body_ensures|].
  intros [[status' h'] input'] w1 Hst'. simpl in Hst'.
  destruct (0 <=? status') eqn:E; [|lia].
  apply IH. lia.
Qed.

Lemma main_ensures fuel status input (w : W) :
  0 <= status →
  ensures (main os fuel status input w) (fun r => r = None) fails_only.
Proof.
  intros Hst. unfold main.
  apply (ensures_bind _ _ _ (fun r => r = None)); [by apply sh_loop_ensures|].
  by intros r w1 ->.
Qed.

End LoopFacts.

Lemma demo_loop_body_at_end (status : Z) (h : hist) :
  sh_loop_body demo_os status h [] 0%nat
    = Returned (0, h, []) 0%nat [Prompt; RawMode true; RawMode false].
Proof. vm_compute. reflexivity. Qed.

Lemma demo_loop_at_end (fuel : nat) :
  ∀ status h,
    sh_loop demo_os fuel status h [] 0%nat
      = Returned None 0%nat
          (mjoin (replicate fuel [Prompt; RawMode true; RawMode false])).
Proof.
  induction fuel as [|fuel IH]; intros status h; [done|].
  cbn [sh_loop]. unfold mbind, M_bind.
  rewrite (bindM_step _ _ _ _ _ _ (demo_loop_body_at_end status h)).
  cbn [Z.leb Z.compare]. rewrite IH. done.
Qed.

(** C5, at the failing input.  At the end of the input [sh_read_line]
    returns its buffer like any other line (here the untouched fresh block),
    the loop goes round again, and however many passes are allowed, [main]
    has not returned: the shell does not exit.  On every system
    [sh_read_line] can only return a buffer (its allocations being taken to
    succeed), and unless [status] starts out
    negative, [main] never returns and the shell can end only through
    [exit(EXIT_FAILURE)]. *)
Theorem sh_loop_spins_at_end_of_input (fuel : nat) (status : Z) :
  sh_read_line demo_os [] 0%nat
    = Returned (replicate BUFFER_SIZE NUL, []) 0%nat [RawMode true; RawMode false] ∧
  returned (main demo_os fuel status [] 0%nat) = Some None ∧
  events (main demo_os fuel status [] 0%nat)
    = mjoin (replicate fuel [Prompt; RawMode true; RawMode false]) ∧
  (∀ W (os : OS W) (input : list ascii) (w : W),
     ensures (sh_read_line os input w) (fun _ => True) (fun _ => False)) ∧
  (∀ W (os : OS W) (input : list ascii) (w : W),
     status < 0 ∨
     ensures (main os fuel status input w) (fun r => r = None) fails_only).
Proof.
  split; [by vm_compute|].
  split; [|split; [|split]].
  - unfold main, mbind, M_bind.
    by rewrite (bindM_step _ _ _ _ _ _ (demo_loop_at_end fuel status _)).
  - unfold main, mbind, M_bind.
    rewrite (bindM_step _ _ _ _ _ _ (demo_loop_at_end fuel status _)).
    simpl. by rewrite app_nil_r.
  - intros W os input w. apply sh_read_line_ensures.
  - intros W os input w.
    destruct (Z.lt_ge_cases status 0) as [Hneg|Hpos]; [by left|].
    right. by apply main_ensures.
Qed.



(** C9, as amended.  In the line-buffered shell a command that reads
    [history] prints the list and is not stored, so a line made of that
    command leaves the history as it was.  The raw-mode shell has no such
    command: [sh_loop] stores the line [history] like any other line and
    hands it to [sh_execute_logical]. *)
Theorem history_command_recording {W} (os : OS W)
        (cmd_str : string) (history : list string)
        (status : Z) (h : hist) (w : W) :
  (Simple.trim_trailing (Simple.skip_leading cmd_str) = "history" →
   Simple.main_command cmd_str history
     = (history, Simple.print_history history)) ∧
  (Simple.main_line ("history" +:+ String newline "") history).1 = history ∧
  (∃ w' t,
     process_line os "history" status h w
       = Returned (0, add_to_history MAX_HISTORY "history" h) w' t).
Proof.
  split; [|split].
  - intros Ht. unfold Simple.main_command. by rewrite Ht.
  - by vm_compute.
  - assert (Hn : is_history_invocation "history" = false) by reflexivity.
    unfold process_line. rewrite Hn. clear Hn.
    unfold record_and_execute.
    change (sh_split_line (trim_newline "history")) with ["history"].
    destruct (sh_execute_logical_single os "history" w) as (w' & t & He); try done.
    exists w', (t ++ []). unfold mbind, M_bind.
    by rewrite (bindM_step _ _ _ _ _ _ He).
Qed.

Lemma history_command_recording_witness :
  Simple.trim_trailing (Simple.skip_leading "  history ") = "history" ∧
  Simple.main_command "  history " ["ls"; "pwd"]
    = (["ls"; "pwd"], [Simple.HistoryLine 1 "ls"; Simple.HistoryLine 2 "pwd"]).
Proof.
  split; [reflexivity|].
  apply (proj1 (history_command_recording
                  demo_os "  history " ["ls"; "pwd"] 0
                  (history_init MAX_HISTORY) 0%nat)).
  reflexivity.
Defined.

(** C9, counterexample.  One pass of [sh_loop] over the input line
    [history]: afterwards the line is in the store. *)
Lemma sh_loop_records_history_line :
  let o := sh_loop_body demo_os 0 (history_init MAX_HISTORY)
                        (chars "history" ++ [newline]) 0%nat in
  (λ v, resident v.1.2) <$> returned o = Some ["history"] ∧
  resident (history_init MAX_HISTORY) = [] ∧
  child_runs demo_os <$> children (events o) = [None].
Proof. vm_compute. repeat split. Qed.

(** * Further properties of the code *)

(** ** The tokenizer *)

Lemma chars_snoc (s : string) (c : ascii) :
  chars (s +:+ String c "") = chars s ++ [c].
Proof.
  induction s as [|c' s IH]; [done|].
  change (chars (String c' (s +:+ String c "")) = c' :: chars s ++ [c]).
  unfold chars in *. simpl. by rewrite IH.
Qed.

Lemma string_app_nil_r (s : string) : s +:+ "" = s.
Proof.
  induction s as [|c s IH]; [done|].
  change (String c (s +:+ "") = String c s). by rewrite IH.
Qed.

Lemma string_snoc_app (s t : string) (c : ascii) :
  (s +:+ String c "") +:+ t = s +:+ String c t.
Proof.
  induction s as [|c' s IH]; [done|].
  change (String c' ((s +:+ String c "") +:+ t) = String c' (s +:+ String c t)).
  by rewrite IH.
Qed.

Lemma string_snoc_nonempty (s : string) (c : ascii) :
  streq (s +:+ String c "") "" = false.
Proof. by destruct s. Qed.

(** Splitting goes through a delimiter: what stands before it and what
    stands after it are cut independently. *)
Lemma strtok_from_app_delim (delim : list ascii) (a b : string) (d : ascii) :
  is_delim delim d = true →
  ∀ token,
    strtok_from delim (a +:+ String d b) token
      = strtok_from delim a token ++ strtok_all delim b.
Proof.
  intros Hd. induction a as [|c a IH]; intros token.
  - simpl. rewrite Hd. by destruct (streq token "").
  - change (String c a +:+ String d b) with (String c (a +:+ String d b)).
    simpl. destruct (is_delim delim c); [|apply IH].
    destruct (streq token ""); [apply IH|]. simpl. f_equal. apply IH.
Qed.

(** A run of characters without delimiters is added to the token in hand. *)
Lemma strtok_from_plain (delim : list ascii) (t : string) :
  forallb (fun c => negb (is_delim delim c)) (chars t) = true →
  ∀ token,
    strtok_from delim t token
      = if streq (token +:+ t) "" then [] else [token +:+ t].
Proof.
  induction t as [|c t IH]; intros Hp token.
  - simpl. by rewrite string_app_nil_r.
  - unfold chars in Hp. simpl in Hp. apply andb_true_iff in Hp as [Hc Ht].
    apply negb_true_iff in Hc. simpl. rewrite Hc.
    rewrite (IH Ht). by rewrite string_snoc_app.
Qed.

Lemma strtok_from_ok (delim : list ascii) (line : string) :
  ∀ token,
    forallb (fun c => negb (is_delim delim c)) (chars token) = true →
    Forall (fun tok => token_ok delim tok = true) (strtok_from delim line token).
Proof.
  induction line as [|c line IH]; intros token Hp; simpl.
  - destruct (streq token "") eqn:E; [done|].
    apply Forall_singleton. unfold token_ok. by rewrite E.
  - destruct (is_delim delim c) eqn:Ec.
    + destruct (streq token "") eqn:E; [by apply IH|].
      apply Forall_cons. split; [unfold token_ok; by rewrite E | by apply IH].
    + apply IH. rewrite chars_snoc, forallb_app, Hp. simpl. by rewrite Ec.
Qed.

(** Every token that [sh_split_line] hands out is non-empty and holds none
    of the delimiter characters. *)
Theorem sh_split_line_tokens_ok (line : string) :
  Forall (fun tok => token_ok TOKEN_DELIM tok = true) (sh_split_line line).
Proof. by apply strtok_from_ok. Qed.

(** A line made of two parts with a delimiter between them is cut into the
    tokens of the first part followed by the tokens of the second. *)
Theorem sh_split_line_app (a b : string) (d : ascii) :
  is_delim TOKEN_DELIM d = true →
  sh_split_line (a +:+ String d b) = sh_split_line a ++ sh_split_line b.
Proof. intros Hd. by apply strtok_from_app_delim. Qed.

Lemma sh_split_line_app_witness :
  is_delim TOKEN_DELIM " " = true ∧
  sh_split_line ("ls -l" +:+ String " " "| wc") = ["ls"; "-l"] ++ ["|"; "wc"].
Proof.
  split; [reflexivity|].
  exact (sh_split_line_app "ls -l" "| wc" " " eq_refl).
Defined.

(** Round trip: well-formed tokens written with one delimiter between them
    are cut into the same tokens again. *)
Theorem sh_split_line_join (d : ascii) (toks : list string) :
  is_delim TOKEN_DELIM d = true →
  Forall (fun tok => token_ok TOKEN_DELIM tok = true) toks →
  sh_split_line (join_tokens d toks) = toks.
Proof.
  intros Hd Hok. induction Hok as [|tok rest Htok Hrest IH]; [done|].
  assert (Hone : sh_split_line tok = [tok]).
  { unfold token_ok in Htok. apply andb_true_iff in Htok as [Hne Hp].
    unfold sh_split_line, strtok_all. rewrite (strtok_from_plain _ _ Hp).
    change ("" +:+ tok) with tok.
    by apply negb_true_iff in Hne as ->. }
  destruct rest as [|tok' rest]; [exact Hone|].
  change (join_tokens d (tok :: tok' :: rest))
    with (tok +:+ String d (join_tokens d (tok' :: rest))).
  unfold sh_split_line, strtok_all in *.
  rewrite (strtok_from_app_delim _ tok _ d Hd), Hone.
  unfold strtok_all. by rewrite IH.
Qed.

Lemma sh_split_line_join_witness :
  is_delim TOKEN_DELIM "009" = true ∧
  Forall (fun tok => token_ok TOKEN_DELIM tok = true) ["cat"; "<"; "in.txt"] ∧
  sh_split_line (join_tokens "009" ["cat"; "<"; "in.txt"]) = ["cat"; "<"; "in.txt"].
Proof.
  assert (Hd : is_delim TOKEN_DELIM "009" = true) by reflexivity.
  assert (Hok : Forall (fun tok => token_ok TOKEN_DELIM tok = true)
                       ["cat"; "<"; "in.txt"]).
  { repeat constructor. }
  split; [exact Hd|]. split; [exact Hok|].
  exact (sh_split_line_join "009" ["cat"; "<"; "in.txt"] Hd Hok).
Defined.

Lemma strtok_trim_newline (line : string) :
  strtok_all TOKEN_DELIM (trim_newline line) = strtok_all TOKEN_DELIM line.
Proof.
  destruct (trim_newline_cases line) as [->|H]; [done|].
  transitivity (strtok_all TOKEN_DELIM (trim_newline line +:+ String newline ""));
    [|by rewrite <- H].
  unfold strtok_all.
  rewrite (strtok_from_app_delim TOKEN_DELIM _ "" newline eq_refl).
  by rewrite app_nil_r.
Qed.

(** [add_to_history] cuts the trailing newline off the caller's line before
    [sh_split_line] sees it (lines 507-508); the tokens are those of the
    uncut line. *)
Theorem sh_split_line_trim_newline (line : string) :
  sh_split_line (trim_newline line) = sh_split_line line.
Proof. apply strtok_trim_newline. Qed.

Lemma strtok_from_blank (delim : list ascii) (line : string) :
  forallb (is_delim delim) (chars line) = true →
  strtok_from delim line "" = [].
Proof.
  induction line as [|c line IH]; [done|].
  unfold chars. simpl. intros [Hc Hl]%andb_true_iff. rewrite Hc. by apply IH.
Qed.

Lemma blank_not_invocation (line : string) :
  forallb (is_delim TOKEN_DELIM) (chars line) = true →
  is_history_invocation line = false.
Proof.
  destruct line as [|c rest]; [done|].
  unfold chars. simpl forallb. intros [Hc _]%andb_true_iff.
  unfold is_history_invocation.
  destruct (Ascii.eqb c "!") eqn:E; [|done].
  apply Ascii.eqb_eq in E as ->. discriminate.
Qed.

(** A line that holds nothing but delimiter characters starts no process
    and leaves the system as it is; the loop hands it to [add_to_history]
    all the same, so unless it is empty (or a single newline) it is stored. *)
Theorem process_line_blank {W} (os : OS W) (line : string)
        (status : Z) (h : hist) (w : W) :
  forallb (is_delim TOKEN_DELIM) (chars line) = true →
  process_line os line status h w
    = Returned (0, add_to_history MAX_HISTORY line h) w [].
Proof.
  intros Hb. unfold process_line.
  rewrite (blank_not_invocation line Hb).
  unfold record_and_execute.
  unfold sh_split_line. rewrite strtok_trim_newline.
  unfold strtok_all. by rewrite (strtok_from_blank _ _ Hb).
Qed.

Lemma process_line_blank_witness :
  forallb (is_delim TOKEN_DELIM) (chars "  ") = true ∧
  process_line demo_os "  " 7 (history_init MAX_HISTORY) 0%nat
    = Returned (0, add_to_history MAX_HISTORY "  " (history_init MAX_HISTORY))
               0%nat [] ∧
  resident (add_to_history MAX_HISTORY "  " (history_init MAX_HISTORY)) = ["  "].
Proof.
  split; [reflexivity|]. split; [|reflexivity].
  exact (process_line_blank demo_os "  " 7 (history_init MAX_HISTORY) 0%nat eq_refl).
Defined.

(** ** Redirection, continued *)

Section RedirectionMore.
Context {W : Type} (os : OS W).

(** A segment that resolves without error is scanned to its end, so what
    follows it is resolved on its own, from the streams the first part left. *)
Lemma handle_redirection_app_ok (a : list string) :
  ∀ (b : list string) (io : stdio) (ra : list string) (io1 : stdio),
    handle_redirection os a io = RedirOk ra io1 →
    handle_redirection os (a ++ b) io =
      match handle_redirection os b io1 with
      | RedirOk rb io2 => RedirOk (ra ++ rb) io2
      | RedirErr e => RedirErr e
      end.
Proof.
  induction a as [|x|x y l IH1 IH2] using list_pair_ind; intros b io ra io1.
  - simpl. intros [= <- <-]. by destruct (handle_redirection os b io).
  - destruct (is_redir_op x) eqn:Ex.
    + unfold is_redir_op in Ex. simpl.
      destruct (redir_op x) as [[flags target]|]; done.
    + change ([x] ++ b) with (x :: b).
      rewrite !(handle_redirection_cons_plain os x) by done.
      change (handle_redirection os [] io) with (RedirOk [] io).
      intros [= <- <-].
      by destruct (handle_redirection os b io).
  - destruct (is_redir_op x) eqn:Ex.
    + unfold is_redir_op in Ex.
      change ((x :: y :: l) ++ b) with (x :: y :: (l ++ b)).
      simpl handle_redirection.
      destruct (redir_op x) as [[flags target]|]; [|done].
      destruct (negb (sys_open os y flags)); [done|].
      destruct (negb (sys_dup2 os (File y flags) target)); [done|].
      apply IH1.
    + change ((x :: y :: l) ++ b) with (x :: ((y :: l) ++ b)).
      rewrite !(handle_redirection_cons_plain os x) by done.
      destruct (handle_redirection os (y :: l) io) as [r io2|e] eqn:E; [|done].
      intros [= <- <-]. rewrite (IH2 b io r io2 E).
      by destruct (handle_redirection os b io2).
Qed.

End RedirectionMore.

(** The loop of [handle_redirection] on the argument array (index, shifting
    loop, null pointers) computes what the scan of the token list computes:
    the same return value and message, the same streams, and on return 0
    the remaining tokens in place, followed by null pointers up to where the
    segment ended. *)
Theorem handle_redirection_in_place {W} (os : OS W) (l : list string)
        (junk : list (option string)) (io : stdio) :
  match handle_redirection os l io with
  | RedirOk r io1 =>
    handle_redirection_array os ((Some <$> l) ++ None :: junk) io
      = (None,
         (Some <$> r) ++ replicate (S (length l - length r)) None ++ junk,
         io1)
  | RedirErr e =>
    (handle_redirection_array os ((Some <$> l) ++ None :: junk) io).1.1 = Some e
  end.
Proof. apply handle_redirection_array_refines. Qed.

(** Resolution composes: when a first part of a segment resolves without
    error, the whole segment resolves to the tokens left of the first part
    followed by those left of the rest, the rest starting from the streams
    the first part set up. *)
Theorem handle_redirection_app {W} (os : OS W) (a b : list string)
        (io : stdio) (ra : list string) (io1 : stdio) :
  handle_redirection os a io = RedirOk ra io1 →
  handle_redirection os (a ++ b) io =
    match handle_redirection os b io1 with
    | RedirOk rb io2 => RedirOk (ra ++ rb) io2
    | RedirErr e => RedirErr e
    end.
Proof. apply handle_redirection_app_ok. Qed.

Lemma handle_redirection_app_witness :
  handle_redirection demo_os ["sort"; "<"; "in"] io_inherited
    = RedirOk ["sort"] (Stdio (File "in" RdOnly) Inherited) ∧
  handle_redirection demo_os (["sort"; "<"; "in"] ++ ["-r"; ">"; "out"]) io_inherited
    = RedirOk (["sort"] ++ ["-r"]) (Stdio (File "in" RdOnly) (File "out" WrTrunc)).
Proof.
  split; [reflexivity|].
  exact (handle_redirection_app demo_os ["sort"; "<"; "in"] ["-r"; ">"; "out"]
           io_inherited ["sort"] (Stdio (File "in" RdOnly) Inherited) eq_refl).
Defined.

(** The last redirection of a stream wins: an operator with its file at the
    end of a segment that resolves without error binds its stream to that
    file, whatever the segment did to the stream before, and leaves the
    tokens and the other stream alone. *)
Theorem handle_redirection_last_wins {W} (os : OS W) (args : list string)
        (op path : string) (flags : oflag) (target : stdfd)
        (io : stdio) (r : list string) (io1 : stdio) :
  handle_redirection os args io = RedirOk r io1 →
  redir_op op = Some (flags, target) →
  sys_open os path flags = true →
  sys_dup2 os (File path flags) target = true →
  handle_redirection os (args ++ [op; path]) io
    = RedirOk r (rebind target (File path flags) io1) ∧
  match target with
  | STDIN_FILENO =>
    io_stdin (rebind target (File path flags) io1) = File path flags ∧
    io_stdout (rebind target (File path flags) io1) = io_stdout io1
  | STDOUT_FILENO =>
    io_stdout (rebind target (File path flags) io1) = File path flags ∧
    io_stdin (rebind target (File path flags) io1) = io_stdin io1
  end.
Proof.
  intros Hok Hop Hopen Hdup. split; [|by destruct target].
  rewrite (handle_redirection_app_ok os args [op; path] io r io1 Hok).
  simpl. rewrite Hop, Hopen, Hdup. simpl. by rewrite app_nil_r.
Qed.

Lemma handle_redirection_last_wins_witness :
  handle_redirection demo_os ["ls"; ">"; "a"; ">>"; "b"] io_inherited
    = RedirOk ["ls"] (Stdio Inherited (File "b" WrAppend)) ∧
  handle_redirection demo_os (["ls"; ">"; "a"; ">>"; "b"] ++ [">"; "c"]) io_inherited
    = RedirOk ["ls"] (Stdio Inherited (File "c" WrTrunc)).
Proof.
  split; [reflexivity|].
  exact (proj1 (handle_redirection_last_wins demo_os
                  ["ls"; ">"; "a"; ">>"; "b"] ">" "c" WrTrunc STDOUT_FILENO
                  io_inherited ["ls"] (Stdio Inherited (File "b" WrAppend))
                  eq_refl eq_refl eq_refl eq_refl)).
Defined.

(** Resolution is idempotent: the tokens it leaves hold no operator, so
    resolving them again removes nothing and rebinds no stream. *)
Theorem handle_redirection_idempotent {W} (os : OS W) (args : list string)
        (io : stdio) (r : list string) (io1 : stdio) :
  handle_redirection os args io = RedirOk r io1 →
  ∀ io', handle_redirection os r io' = RedirOk r io'.
Proof.
  intros Hok io'. apply handle_redirection_sublist in Hok as [_ Hplain].
  by apply handle_redirection_plain.
Qed.

Lemma handle_redirection_idempotent_witness :
  handle_redirection demo_os ["wc"; "<"; "f"; "-l"] io_inherited
    = RedirOk ["wc"; "-l"] (Stdio (File "f" RdOnly) Inherited) ∧
  handle_redirection demo_os ["wc"; "-l"] (Stdio (File "f" RdOnly) Inherited)
    = RedirOk ["wc"; "-l"] (Stdio (File "f" RdOnly) Inherited).
Proof.
  split; [reflexivity|].
  exact (handle_redirection_idempotent demo_os ["wc"; "<"; "f"; "-l"] io_inherited
           ["wc"; "-l"] (Stdio (File "f" RdOnly) Inherited) eq_refl
           (Stdio (File "f" RdOnly) Inherited)).
Defined.

(** ** The history store, continued *)

(** Recording and recall fit together: the line just recorded is the entry
    with the highest index, and the older entries keep their index while the
    store is not full and move down by one when the oldest entry is
    evicted. *)
Theorem add_to_history_then_get (cap : nat) (lines : list string)
        (command : string) (n : Z) :
  (0 < cap)%nat →
  trim_newline command ≠ "" →
  let s := record_all cap lines in
  let s' := add_to_history cap command s in
  get_history_command (Z.of_nat (history_count s')) s'
    = Some (trim_newline command) ∧
  (1 <= n < Z.of_nat (history_count s') →
   get_history_command n s' =
     if (history_count s <? cap)%nat then get_history_command n s
     else get_history_command (n + 1) s).
Proof.
  intros Hpos Hne s s'.
  pose proof (record_all_represents cap Hpos lines) as Hs. fold s in Hs.
  pose proof (represents_add cap Hpos command s _ Hs) as Hs'. fold s' in Hs'.
  set (l := lastn cap (recorded lines)) in *.
  assert (Hc : history_count s = length l) by apply Hs.
  assert (Hc' : history_count s' = length (push cap command l)) by apply Hs'.
  assert (Hle : (length l ≤ cap)%nat) by apply Hs.
  rewrite !(represents_get cap Hpos s' _ _ Hs'), !(represents_get cap Hpos s _ _ Hs).
  rewrite Hc', Hc. unfold push, streq.
  destruct (String.eqb_spec (trim_newline command) ""); [done|].
  set (c := trim_newline command).
  destruct (length l <? cap)%nat eqn:Efull.
  - apply Nat.ltb_lt in Efull. rewrite length_app. simpl. split.
    + rewrite (proj2 (Z.leb_gt _ _)) by lia. rewrite Z.ltb_irrefl. simpl.
      replace (Z.to_nat (Z.of_nat (length l + 1) - 1)) with (length l + 0)%nat by lia.
      by rewrite lookup_app_r, Nat.add_0_r, Nat.sub_diag by lia.
    + intros Hn.
      rewrite (proj2 (Z.leb_gt n 0)) by lia.
      rewrite (proj2 (Z.ltb_ge _ n)) by lia.
      rewrite (proj2 (Z.ltb_ge (Z.of_nat (length l)) n)) by lia. simpl.
      rewrite lookup_app_l by lia. done.
  - apply Nat.ltb_ge in Efull. assert (length l = cap) as Hfull by lia.
    rewrite length_app, length_drop. simpl. split.
    + rewrite (proj2 (Z.leb_gt _ _)) by lia. rewrite Z.ltb_irrefl. simpl.
      rewrite lookup_app_r by (rewrite length_drop; lia).
      rewrite length_drop.
      by replace (Z.to_nat (Z.of_nat (length l - 1 + 1) - 1) - (length l - 1))%nat
        with 0%nat by lia.
    + intros Hn.
      rewrite (proj2 (Z.leb_gt n 0)) by lia.
      rewrite (proj2 (Z.ltb_ge _ n)) by lia.
      rewrite (proj2 (Z.leb_gt (n + 1) 0)) by lia.
      rewrite (proj2 (Z.ltb_ge (Z.of_nat (length l)) (n + 1))) by lia. simpl.
      rewrite lookup_app_l by (rewrite length_drop; lia).
      rewrite lookup_drop. f_equal. lia.
Qed.

Lemma add_to_history_then_get_witness :
  (0 < 2)%nat ∧ trim_newline "c" ≠ "" ∧
  get_history_command 2 (add_to_history 2 "c" (record_all 2 ["a"; "b"])) = Some "c" ∧
  get_history_command 1 (add_to_history 2 "c" (record_all 2 ["a"; "b"]))
    = get_history_command 2 (record_all 2 ["a"; "b"]).
Proof.
  assert (H1 : (0 < 2)%nat) by lia.
  assert (H2 : trim_newline "c" ≠ "") by discriminate.
  split; [exact H1|]. split; [exact H2|].
  pose proof (add_to_history_then_get 2 ["a"; "b"] "c" 1 H1 H2) as [Hnew Hold].
  split; [exact Hnew|].
  apply Hold. split; [lia | reflexivity].
Defined.

(** ** Running commands, continued *)

Section ExecutionMore.
Context {W : Type} (os : OS W).

Lemma fork_commands_trace :
  forks_succeed os →
  ∀ cmds i n w, ∃ w' t,
    fork_commands os i n cmds w = Returned tt w' t ∧
    length (children t) = length cmds ∧
    count_waits t = 0%nat ∧ announces_background t = false.
Proof.
  intros Hf cmds. induction cmds as [|cmd cmds IH]; intros i n w; simpl.
  - by exists w, [].
  - destruct (Hf w) as (pid & w1 & Hw).
    destruct (IH (S i) n w1) as (w2 & t & Hc & Hl & Hwt & Ha).
    exists w2, (Forked pid (child_pipeline os i n cmd) :: t).
    unfold_monad. rewrite Hw, Hc. repeat split; [|done|done].
    simpl. by rewrite Hl.
Qed.

Lemma count_waits_app t1 t2 :
  count_waits (t1 ++ t2) = (count_waits t1 + count_waits t2)%nat.
Proof. unfold count_waits. by rewrite filter_app, length_app. Qed.

Lemma announces_app t1 t2 :
  announces_background (t1 ++ t2)
    = announces_background t1 || announces_background t2.
Proof. unfold announces_background. apply existsb_app. Qed.

Lemma count_waits_replicate n :
  count_waits (replicate n (Waited None)) = n.
Proof.
  induction n as [|n IH]; [done|]. unfold count_waits in *.
  change (replicate (S n) (Waited None)) with (Waited None :: replicate n (Waited None)).
  rewrite filter_cons_True by done. simpl. by rewrite IH.
Qed.

Lemma announces_replicate n :
  announces_background (replicate n (Waited None)) = false.
Proof. induction n as [|n IH]; [done|]. done. Qed.

Lemma sh_execute_simple_waits tok rest w :
  forks_succeed os → pipes_succeed os →
  let n := length (split_pipes (strip_background (tok :: rest))) in
  ∃ ret w' t,
    sh_execute_simple os (tok :: rest) w = Returned ret w' t ∧
    length (children t) = n ∧
    count_waits t = (if is_background (tok :: rest) then 0%nat else n) ∧
    announces_background t = is_background (tok :: rest).
Proof.
  intros Hf Hp n.
  unfold sh_execute_simple.
  set (args := strip_background (tok :: rest)) in *.
  rewrite (count_commands_split args). fold n.
  destruct (n =? 1)%nat eqn:En.
  - apply Nat.eqb_eq in En. destruct (Hf w) as (pid & w1 & Hw).
    destruct (is_background (tok :: rest)).
    + exists 0, w1, [Forked pid (child_single os args); BackgroundPid pid].
      unfold_monad. rewrite Hw, En. done.
    + exists 0, w1, [Forked pid (child_single os args); Waited (Some pid)].
      unfold_monad. rewrite Hw, En. done.
  - destruct (create_pipes_ok os Hp (n - 1) w) as (w1 & Hc).
    destruct (fork_commands_trace Hf (split_pipes args) 0 n w1)
      as (w2 & t & Hk & Hl & Hwt & Ha).
    destruct (is_background (tok :: rest)).
    + exists 0, w2, (t ++ [BackgroundPipeline]).
      unfold_monad. rewrite Hc, Hk. simpl. split; [done|].
      rewrite children_app, length_app, count_waits_app, announces_app, Hl, Hwt, Ha.
      simpl. split; [lia|]. split; [done|]. done.
    + exists 0, w2, (t ++ replicate n (Waited None)).
      unfold_monad. rewrite Hc, Hk, wait_all_events. simpl.
      rewrite app_nil_r. split; [done|].
      rewrite children_app, length_app, count_waits_app, announces_app, Hl, Hwt, Ha.
      rewrite children_replicate_waited, count_waits_replicate, announces_replicate.
      simpl. split; [lia|]. done.
Qed.

Lemma find_op_plain seg :
  no_logical_op seg = true →
  ∀ tail, find_op (seg ++ tail)
          = (seg ++ (find_op tail).1, (find_op tail).2).
Proof.
  induction seg as [|tok seg IH]; intros Hp tail.
  - simpl. by destruct (find_op tail).
  - simpl in Hp. apply andb_true_iff in Hp as [Htok Hseg].
    change ((tok :: seg) ++ tail) with (tok :: (seg ++ tail)).
    simpl. rewrite Htok, (IH Hseg tail). done.
Qed.

End ExecutionMore.

Lemma outcome_nil_trace {W A} (o : outcome W A) :
  match o with
  | Returned b w2 t2 => Returned b w2 ([] ++ t2)
  | Exited s w2 t2 => Exited s w2 ([] ++ t2)
  end = o.
Proof. by destruct o. Qed.

Lemma bindM_ret_r {W A} (m : M W A) (w : W) :
  bindM m (fun a => retM a) w = m w.
Proof.
  unfold bindM, retM. destruct (m w) as [a w1 t1|s w1 t1]; [|done].
  by rewrite app_nil_r.
Qed.

(** In the foreground the shell waits once for every child it created; with
    a trailing [&] it does not wait at all and announces the job instead.
    Either way there is one child per segment. *)
Theorem sh_execute_simple_foreground_waits {W} (os : OS W)
        (tok : string) (rest : list string) (w : W) :
  forks_succeed os → pipes_succeed os →
  let n := length (split_pipes (strip_background (tok :: rest))) in
  ∃ ret w' t,
    sh_execute_simple os (tok :: rest) w = Returned ret w' t ∧
    length (children t) = n ∧
    count_waits t = (if is_background (tok :: rest) then 0%nat else n) ∧
    announces_background t = is_background (tok :: rest).
Proof. apply sh_execute_simple_waits. Qed.

Lemma sh_execute_simple_foreground_waits_witness :
  (∃ ret w' t,
     sh_execute_simple demo_os ["ls"; "|"; "sort"; "|"; "wc"] 0%nat = Returned ret w' t ∧
     length (children t) = 3%nat ∧ count_waits t = 3%nat ∧
     announces_background t = false) ∧
  (∃ ret w' t,
     sh_execute_simple demo_os ["ls"; "|"; "wc"; "&"] 0%nat = Returned ret w' t ∧
     length (children t) = 2%nat ∧ count_waits t = 0%nat ∧
     announces_background t = true).
Proof.
  split.
  - exact (sh_execute_simple_foreground_waits demo_os "ls" ["|"; "sort"; "|"; "wc"]
             0%nat demo_forks_succeed demo_pipes_succeed).
  - exact (sh_execute_simple_foreground_waits demo_os "ls" ["|"; "wc"; "&"]
             0%nat demo_forks_succeed demo_pipes_succeed).
Defined.



(** A child of a pipeline reads from the pipe before it and writes to the
    pipe after it, the first child reading and the last one writing what
    the shell itself does; a redirection written in the segment is applied
    after the pipes and so takes the stream away from the pipe. *)
Theorem child_pipeline_wiring {W} (os : OS W) (i n : nat) (cmd : list string)
        (op path : string) (flags : oflag) (target : stdfd) :
  (∀ e t, sys_dup2 os e t = true) →
  forallb (fun tok => negb (is_redir_op tok)) cmd = true →
  child_pipeline os i n cmd = ChildExec cmd (pipe_io i n) ∧
  (redir_op op = Some (flags, target) → sys_open os path flags = true →
   child_pipeline os i n (cmd ++ [op; path])
     = ChildExec cmd (rebind target (File path flags) (pipe_io i n))).
Proof.
  intros Hdup Hplain.
  assert (Hio : ∀ c, child_pipeline os i n c =
                     match handle_redirection os c (pipe_io i n) with
                     | RedirErr e => ChildExit EXIT_FAILURE (RedirectionFailed e)
                     | RedirOk argv io => ChildExec argv io
                     end).
  { intros c. unfold child_pipeline, pipe_io. rewrite !Hdup. simpl.
    rewrite !andb_false_r.
    by destruct (i =? 0)%nat, (i =? n - 1)%nat. }
  split.
  - by rewrite Hio, (handle_redirection_plain os cmd _ Hplain).
  - intros Hop Hopen. rewrite Hio.
    rewrite (handle_redirection_app_ok os cmd [op; path] _ cmd _
               (handle_redirection_plain os cmd _ Hplain)).
    simpl. rewrite Hop, Hopen, Hdup. simpl. by rewrite app_nil_r.
Qed.

Lemma child_pipeline_wiring_witness :
  child_pipeline demo_os 1 3 ["sort"; "-r"]
    = ChildExec ["sort"; "-r"] (Stdio (PipeRead 0) (PipeWrite 1)) ∧
  child_pipeline demo_os 1 3 (["sort"; "-r"] ++ [">"; "out"])
    = ChildExec ["sort"; "-r"] (Stdio (PipeRead 0) (File "out" WrTrunc)).
Proof.
  pose proof (child_pipeline_wiring demo_os 1 3 ["sort"; "-r"] ">" "out"
                WrTrunc STDOUT_FILENO (fun _ _ => eq_refl) eq_refl) as [H1 H2].
  split; [exact H1|]. exact (H2 eq_refl eq_refl).
Defined.

(** Edges of a chain: a line without [&&] and [||] goes to
    [sh_execute_simple] as a whole; an operator at the end of the line is
    dropped; a line that starts with [&&] is run as if the operator were not
    there, and a line that starts with [||] runs nothing. *)
Theorem sh_execute_logical_edges {W} (os : OS W)
        (seg rest : list string) (w : W) :
  no_logical_op seg = true →
  sh_execute_logical os seg w = sh_execute_simple os seg w ∧
  sh_execute_logical os (seg ++ ["&&"]) w = sh_execute_simple os seg w ∧
  sh_execute_logical os (seg ++ ["||"]) w = sh_execute_simple os seg w ∧
  sh_execute_logical os ("&&" :: rest) w = sh_execute_logical os rest w ∧
  sh_execute_logical os ("||" :: rest) w = Returned 0 w [].
Proof.
  intros Hp.
  assert (Htail : ∀ op, streq op "&&" || streq op "||" = true →
            sh_execute_logical os (seg ++ [op]) w = sh_execute_simple os seg w).
  { intros op Hop. unfold sh_execute_logical.
    rewrite length_app. simpl. rewrite Nat.add_1_r.
    cbn [sh_execute_logical_loop].
    destruct (seg ++ [op]) as [|x l] eqn:E; [by destruct seg|]. rewrite <- E.
    rewrite (find_op_plain seg Hp [op]). simpl.
    assert (Hneg : negb (streq op "&&") && negb (streq op "||") = false).
    { by destruct (streq op "&&"), (streq op "||"). }
    rewrite Hneg. simpl. rewrite app_nil_r.
    unfold mbind, M_bind, bindM.
    destruct (sh_execute_simple os seg w) as [r w1 t1|s w1 t1]; [|done].
    assert (Hend : ∀ k, sh_execute_logical_loop os k [] r w1 = Returned r w1 []).
    { by intros [|k]. }
    destruct (streq op "&&").
    - destruct (negb (r =? 0)); [|rewrite Hend]; unfold retM; by rewrite app_nil_r.
    - destruct (streq op "||"); [|done].
      destruct (r =? 0); [|rewrite Hend]; unfold retM; by rewrite app_nil_r. }
  split; [|split; [|split; [|split]]].
  - unfold sh_execute_logical. destruct seg as [|x l]; [done|].
    cbn [length sh_execute_logical_loop].
    pose proof (find_op_plain (x :: l) Hp []) as Hf.
    rewrite app_nil_r in Hf. rewrite Hf. simpl. rewrite app_nil_r.
    apply bindM_ret_r.
  - by apply Htail.
  - by apply Htail.
  - unfold sh_execute_logical. cbn [length sh_execute_logical_loop find_op].
    simpl. unfold mbind, M_bind, bindM. simpl. apply outcome_nil_trace.
  - unfold sh_execute_logical. cbn [length sh_execute_logical_loop find_op].
    simpl. done.
Qed.

Lemma sh_execute_logical_edges_witness :
  no_logical_op ["ls"; "-l"] = true ∧
  sh_execute_logical demo_os (["ls"; "-l"] ++ ["&&"]) 0%nat
    = sh_execute_simple demo_os ["ls"; "-l"] 0%nat.
Proof.
  split; [reflexivity|].
  exact (proj1 (proj2 (sh_execute_logical_edges demo_os ["ls"; "-l"] [] 0%nat eq_refl))).
Defined.

(** ** The line editor *)






Section EditorFacts.
Context {W : Type} (os : OS W).






End EditorFacts.







Section TypedLine.
Context {W : Type} (os : OS W).


End TypedLine.


